(** * Recursive broken link checker: the crawl engine of [index.js]

    A shallow embedding of the link checker and the properties of its
    frontier, visited set, href normalisation and failure classification.

    JavaScript strings are modelled as [string]: a sequence of characters with
    codes 0..255, which covers every character the program itself tests for
    (slash, hash, question mark, double quote, the line terminators LF and CR
    and the ASCII words it compares with); the two line separators above that
    range are outside the model.  The [visitedUrls] Set is a [gset string];
    arrays are lists.  The transport [fetch] is a parameter of the run, and so
    is the number of arguments the engine lets a call take; console output,
    the timer and the report file are left out. *)

From Stdlib Require Import ZArith Ascii.
From stdpp Require Import base gmap sets list strings.

Local Open Scope nat_scope.

#[local] Set Warnings "-clear-no-such-hyp".

(** ** The String methods the program calls *)

Module Js.

(** [s.startsWith(p)] *)
Fixpoint startsWith (s p : string) {struct p} : bool :=
  match p with
  | EmptyString => true
  | String c p' =>
      match s with
      | EmptyString => false
      | String d s' => if Ascii.eqb d c then startsWith s' p' else false
      end
  end.

(** [s.includes(sub)] *)
Fixpoint includes (s sub : string) : bool :=
  startsWith s sub ||
  match s with
  | EmptyString => false
  | String _ s' => includes s' sub
  end.

(** The characters of [s] from index [n] on. *)
Fixpoint dropChars (n : nat) (s : string) : string :=
  match n, s with
  | S n', String _ s' => dropChars n' s'
  | _, _ => s
  end.

(** [s.replace(pat, rep)] with a string pattern: only the first occurrence
    is replaced ([rep] holds no dollar sign here). *)
Fixpoint replace (s pat rep : string) : string :=
  if startsWith s pat then rep +:+ dropChars (String.length pat) s
  else match s with
       | EmptyString => EmptyString
       | String c s' => String c (replace s' pat rep)
       end.

(** [s.split(sep)] for a one-character separator. *)
Fixpoint split (s : string) (sep : ascii) : list string :=
  match s with
  | EmptyString => [EmptyString]
  | String c s' =>
      if Ascii.eqb c sep then EmptyString :: split s' sep
      else match split s' sep with
           | w :: ws => String c w :: ws
           | [] => [String c EmptyString]
           end
  end.

(** [s.slice(b, e)] with integer arguments, negative ones counting from
    the end. *)
Definition slice (s : string) (b e : Z) : string :=
  let len := Z.of_nat (String.length s) in
  let from := if (b <? 0)%Z then Z.max (len + b) 0 else Z.min b len in
  let to := if (e <? 0)%Z then Z.max (len + e) 0 else Z.min e len in
  String.substring (Z.to_nat from) (Z.to_nat (to - from)) s.

(** Truthiness of a value that is [null] or a string. *)
Definition truthy (v : option string) : bool :=
  match v with
  | Some (String _ _) => true
  | _ => false
  end.

End Js.

(** ** The regular expression [/href=".+?"/g] *)

Abbreviation dquote := ("034"%char) (only parsing).
Abbreviation question := ("?"%char) (only parsing).

(** The six characters that open a match: [href=] and a double quote. *)
Definition hrefOpen : string := "href=" +:+ String dquote EmptyString.

(** [.] refuses the line terminators. *)
Definition isLineTerminator (c : ascii) : bool :=
  Ascii.eqb c "010"%char || Ascii.eqb c "013"%char.

(** After the first character of [.+?], the lazy quantifier stops at the
    first double quote; it cannot cross a line terminator.  The result counts
    the characters consumed, closing quote included. *)
Fixpoint closeQuote (s : string) : option nat :=
  match s with
  | EmptyString => None
  | String c r =>
      if Ascii.eqb c dquote then Some 1
      else if isLineTerminator c then None
      else S <$> closeQuote r
  end.

(** Length of the match that starts at the head of [s], if there is one. *)
Definition matchHere (s : string) : option nat :=
  if Js.startsWith s hrefOpen then
    match Js.dropChars 6 s with
    | EmptyString => None
    | String c r =>
        if isLineTerminator c then None
        else (fun k => 6 + 1 + k) <$> closeQuote r
    end
  else None.

(** All matches from left to right; [skip] counts the characters of the
    current match still to be passed over. *)
Fixpoint matchAll (s : string) (skip : nat) : list string :=
  match s with
  | EmptyString => []
  | String _ r =>
      match skip with
      | S k => matchAll r k
      | O =>
          match matchHere s with
          | Some n => String.substring 0 n s :: matchAll r (n - 1)
          | None => matchAll r 0
          end
      end
  end.

(** [text.match(/href=".+?"/g)]: [null] when nothing matches. *)
Definition matchHref (text : string) : option (list string) :=
  match matchAll text 0 with
  | [] => None
  | ms => Some ms
  end.

(** ** [getHrefs] *)

Section GetHrefs.

(** The global [baseUrl]. *)
Variable baseUrl : string.

(** The body of the [hrefs.map] callback after the slice: [None] is
    [null]. *)
Definition resolve (currentUrl href : string) : option string :=
  let href :=
    if Js.startsWith href "/" then Some (baseUrl +:+ href)
    else if Js.startsWith href "#" || Js.startsWith href "mailto:"
            || Js.startsWith href "tel:" then None
    else if bool_decide (href = "true") || bool_decide (href = "false")
         then None
    else if Js.startsWith href "http" then Some href
    else Some (currentUrl +:+ href) in
  if Js.truthy href
  then (fun h => hd EmptyString (Js.split h question)) <$> href
  else href.

Definition mapCallback (currentUrl m : string) : option string :=
  resolve currentUrl (Js.slice m 6 (-1)).

(** [.filter((href) => !!href)] on one element. *)
Definition keepTruthy (v : option string) : option string :=
  if Js.truthy v then v else None.

Definition getHrefs (text currentUrl : string) : list string :=
  let hrefs := default [] (matchHref text) in
  omap (fun m => keepTruthy (mapCallback currentUrl m)) hrefs.

End GetHrefs.

(** The normaliser of one raw href, in the argument order of its contract:
    what [getHrefs] makes of the href, [None] when the href is dropped. *)
Definition normalize (href currentPageUrl baseOrigin : string) : option string :=
  keepTruthy (resolve baseOrigin currentPageUrl href).

(** The quoted contents of the anchors of a page, as [getHrefs] sees them. *)
Definition rawHrefs (text : string) : list string :=
  (fun m => Js.slice m 6 (-1)) <$> default [] (matchHref text).

(** ** The crawl engine *)

(** An element of [urlQueue]; a record of [brokenLinks] has the same shape. *)
Record FrontierEntry := { url : string; foundOn : string }.

Global Instance FrontierEntry_eq_dec : EqDecision FrontierEntry.
Proof. solve_decision. Defined.

(** What the program reads of a response: [response.status],
    [response.headers.get("content-type")] ([None] is [null]) and the promise
    [response.text()] ([None]: it rejects). *)
Record Response := {
  status : Z;
  contentType : option string;
  text : option string
}.

(** [await fetch(url)] either throws or yields a response. *)
Inductive FetchOutcome :=
| Rejected
| Resolved (response : Response).

(** The variables of the run.  [fetchLog] is not a variable of the program:
    it records the argument of every [fetch] call, in the order of the
    calls. *)
Record State := {
  queue : list FrontierEntry;
  queuePosition : nat;
  visitedUrls : gset string;
  brokenLinks : list FrontierEntry;
  fetchLog : list string
}.

(** [queuePosition++] alone: the state after an entry that is skipped. *)
Definition advance (s : State) : State :=
  {| queue := queue s; queuePosition := S (queuePosition s);
     visitedUrls := visitedUrls s; brokenLinks := brokenLinks s;
     fetchLog := fetchLog s |}.

(** [queuePosition++] and [visitedUrls.add(url)]: the state in which the
    [fetch] of entry [e] is issued. *)
Definition marked (e : FrontierEntry) (s : State) : State :=
  {| queue := queue s; queuePosition := S (queuePosition s);
     visitedUrls := {[url e]} ∪ visitedUrls s; brokenLinks := brokenLinks s;
     fetchLog := fetchLog s |}.

(** The first lines of the loop body, up to the [fetch] call. *)
Inductive Popped :=
| LoopExit
| Skipped (s : State)
| ToFetch (e : FrontierEntry) (s : State).

Definition pop (s : State) : Popped :=
  match queue s !! queuePosition s with
  | None => LoopExit
  | Some e =>
      if bool_decide (url e ∈ visitedUrls s) then Skipped (advance s)
      else ToFetch e (marked e s)
  end.

(** The header test and the body read; [None] is a thrown exception
    ([contentType.includes] on [null], or a rejected [response.text()]). *)
Definition readHtml (response : Response) : option string :=
  ct ← contentType response;
  if Js.includes ct "text/html" then text response else Some EmptyString.

(** The transport of a whole run: the outcome of a [fetch] may depend on
    how many calls were made before it. *)
Definition Transport := nat → string → FetchOutcome.

(** The JavaScript engine the program runs on.  A call takes at most
    [spreadLimit] arguments: a spread call with more of them, as
    [urlQueue.push(...hrefs)] can be, throws a [RangeError] before the callee
    runs.  The number depends on the engine and its stack. *)
Class JsEngine := { spreadLimit : nat }.

Section Engine.

(** The global [baseUrl]; [urlQueue] and the parameter [queue] are one array. *)
Variable baseUrl : string.

Context {engine : JsEngine}.

(** The [try] block: the entries it pushes, or [None] when it throws.  The
    push is its last statement, and a spread call that throws does so before
    anything is pushed, so a throw leaves the queue as it was. *)
Definition tryBlock (visited : gset string) (u : string) (o : FetchOutcome)
  : option (list FrontierEntry) :=
  match o with
  | Rejected => None
  | Resolved response =>
      if (status response =? 404)%Z then None
      else if Js.startsWith u baseUrl then
        html ← readHtml response;
        let hrefs := (fun href => {| url := href; foundOn := u |}) <$>
                     filter (fun href => href ∉ visited)
                            (getHrefs baseUrl html u) in
        if bool_decide (length hrefs ≤ spreadLimit) then Some hrefs else None
      else Some []
  end.

(** The rest of the loop body, once the [fetch] has settled. *)
Definition settle (e : FrontierEntry) (o : FetchOutcome) (s : State) : State :=
  match tryBlock (visitedUrls s) (url e) o with
  | Some hrefs =>
      {| queue := queue s ++ hrefs; queuePosition := queuePosition s;
         visitedUrls := visitedUrls s; brokenLinks := brokenLinks s;
         fetchLog := fetchLog s |}
  | None =>
      {| queue := queue s; queuePosition := queuePosition s;
         visitedUrls := visitedUrls s;
         brokenLinks := brokenLinks s ++ [{| url := url e; foundOn := foundOn e |}];
         fetchLog := fetchLog s |}
  end.

Definition logFetch (u : string) (s : State) : State :=
  {| queue := queue s; queuePosition := queuePosition s;
     visitedUrls := visitedUrls s; brokenLinks := brokenLinks s;
     fetchLog := fetchLog s ++ [u] |}.

(** One turn of the [while] loop against the transport [fetch]. *)
Definition iteration (fetch : string → FetchOutcome) (s : State) : State :=
  match pop s with
  | LoopExit => s
  | Skipped s' => s'
  | ToFetch e s' => settle e (fetch (url e)) (logFetch (url e) s')
  end.

Definition turn (web : Transport) (s : State) : State :=
  iteration (web (length (fetchLog s))) s.

(** The first [n] turns of the loop. *)
Fixpoint turns (n : nat) (web : Transport) (s : State) : State :=
  match n with
  | O => s
  | S n' => turns n' web (turn web s)
  end.

(** The [while] loop with a bound on its turns: [None] when the bound is
    reached before the loop ends. *)
Fixpoint runLinkCheck (fuel : nat) (web : Transport) (s : State) : option State :=
  if bool_decide (queuePosition s < length (queue s)) then
    match fuel with
    | O => None
    | S fuel' => runLinkCheck fuel' web (turn web s)
    end
  else Some s.

End Engine.

(** ** Start-up *)

(** The command line argument after its scheme handling. *)
Definition startingUrl (arg : string) : string :=
  if Js.startsWith arg "http" then Js.replace arg "http://" "https://"
  else "https://" +:+ arg.

Definition seedEntry (arg : string) : FrontierEntry :=
  {| url := startingUrl arg; foundOn := "base URL" |}.

Definition initial (arg : string) : State :=
  {| queue := [seedEntry arg]; queuePosition := 0; visitedUrls := ∅;
     brokenLinks := []; fetchLog := [] |}.

(** The program: [baseUrl] is the starting URL. *)
Definition main {engine : JsEngine} (fuel : nat) (web : Transport) (arg : string)
  : option State :=
  runLinkCheck (startingUrl arg) fuel web (initial arg).

(** ** Definitions the properties are stated with *)

(** Follows the spec's words: everything from the first question mark onward
    is removed. *)
Fixpoint stripQuery (s : string) : string :=
  match s with
  | EmptyString => EmptyString
  | String c r => if Ascii.eqb c question then EmptyString
                  else String c (stripQuery r)
  end.

(** A string result is dropped by the final filter when it is empty. *)
Definition kept (s : string) : option string :=
  match s with
  | EmptyString => None
  | String _ _ => Some s
  end.



(** Follows the spec's words: a URL has a scheme when it starts with
    [http://] or [https://]. *)
Definition hasScheme (u : string) : bool :=
  Js.startsWith u "http://" || Js.startsWith u "https://".

(** The calls so far are pairwise distinct and all marked. *)
Definition loggedOnce (s : State) : Prop :=
  NoDup (fetchLog s) ∧ ∀ u, u ∈ fetchLog s → u ∈ visitedUrls s.




(** What the program's own tests give for a URL: it begins with the four
    letters http, which does not make it absolute, and holds no question
    mark. *)
Definition httpNoQuery (u : string) : Prop :=
  Js.startsWith u "http" = true ∧ Js.includes u "?" = false.

(** The frontier is the seed followed by entries without a query. *)
Definition seedThenStripped (arg : string) (s : State) : Prop :=
  Js.startsWith (startingUrl arg) "http" = true
  ∧ ∃ rest, queue s = seedEntry arg :: rest
            ∧ Forall (fun e => httpNoQuery (url e)) rest.

(** Frontier and log stay inside a set of URLs, and the position inside the
    frontier. *)
Definition inGraph (graph : gset string) (s : State) : Prop :=
  (∀ e, e ∈ queue s → url e ∈ graph)
  ∧ (∀ u, u ∈ fetchLog s → u ∈ graph)
  ∧ queuePosition s ≤ length (queue s).

(** The page fetched at [u] is scanned and its hrefs, normalised, are
    [links] in this order. *)
Definition linksTo (baseUrl : string) (o : FetchOutcome) (u : string)
    (links : list string) : Prop :=
  ∃ r html, o = Resolved r ∧ status r ≠ 404%Z
            ∧ readHtml r = Some html ∧ getHrefs baseUrl html u = links.

(** Whatever is visited, the [try] block pushes nothing for this outcome. *)
Definition linksNowhere {engine : JsEngine} (baseUrl : string)
    (o : FetchOutcome) (u : string) : Prop :=
  ∀ visited new, tryBlock baseUrl visited u o = Some new → new = [].

(** ** A small site to run the engine on *)

Module Site.

Definition anchor (href : string) : string :=
  "<a " +:+ hrefOpen +:+ href +:+ String dquote EmptyString +:+ ">x</a>".

Definition html (body : string) : FetchOutcome :=
  Resolved {| status := 200; contentType := Some "text/html; charset=utf-8";
              text := Some body |}.

(** The engine of the witnesses. *)
Definition node : JsEngine := {| spreadLimit := 1000 |}.

(** The seed links to /a then /b, /a links to /c and to the root page, the
    root page links back to /a, /b links to /c again, /c is missing. *)
Definition web : Transport := fun _ u =>
  if bool_decide (u = "https://s.test") then html (anchor "/a" +:+ anchor "/b")
  else if bool_decide (u = "https://s.test/a") then html (anchor "/c?x=1" +:+ anchor "/")
  else if bool_decide (u = "https://s.test/b") then html (anchor "/c?y")
  else if bool_decide (u = "https://s.test/") then html (anchor "#top" +:+ anchor "/a")
  else Resolved {| status := 404; contentType := None; text := None |}.


(** A site without a cycle: the seed links to /a then /b, /a links to /c,
    /b has no link and /c is missing. *)
Definition tree : Transport := fun _ u =>
  if bool_decide (u = "https://s.test") then html (anchor "/a" +:+ anchor "/b")
  else if bool_decide (u = "https://s.test/a") then html (anchor "/c")
  else if bool_decide (u = "https://s.test/b") then html "<p>no link</p>"
  else Resolved {| status := 404; contentType := None; text := None |}.

(** The URLs of the site [web]. *)
Definition graph : gset string :=
  list_to_set ["https://s.test"; "https://s.test/a"; "https://s.test/b";
               "https://s.test/c"; "https://s.test/"].

End Site.

(** ** Definitions for the further properties *)

(** The entries already popped: the queue up to [queuePosition]. *)
Definition popped (s : State) : list FrontierEntry :=
  take (queuePosition s) (queue s).

(** What the [catch] handler sees, whatever the page links to: the outcomes
    on which the [try] block throws for the URL [u] before it comes to the
    links. *)
Definition isBroken (baseUrl u : string) (o : FetchOutcome) : bool :=
  match o with
  | Rejected => true
  | Resolved r =>
      (status r =? 404)%Z
      || (Js.startsWith u baseUrl
          && match readHtml r with Some _ => false | None => true end)
  end.

(** The other way into the [catch] handler: the page is scanned and holds
    more unvisited links than one call takes arguments. *)
Definition pushOverflows {engine : JsEngine} (baseUrl : string)
    (visited : gset string) (u : string) (o : FetchOutcome) : bool :=
  match o with
  | Rejected => false
  | Resolved r =>
      negb (status r =? 404)%Z && Js.startsWith u baseUrl
      && match readHtml r with
         | Some html =>
             bool_decide
               (spreadLimit
                < length (filter (fun href => href ∉ visited)
                                 (getHrefs baseUrl html u)))
         | None => false
         end
  end.

(** Every character of [s] passes the test [p]. *)
Fixpoint allChars (p : ascii → bool) (s : string) : bool :=
  match s with
  | EmptyString => true
  | String c r => p c && allChars p r
  end.

(** The characters the lazy part of the pattern runs over: neither a double
    quote nor a line terminator. *)
Definition plainChar (c : ascii) : bool :=
  negb (Ascii.eqb c dquote) && negb (isLineTerminator c).

(** The earlier copy of the program (the second source file): its
    [getHrefs] has no branch for the literal hrefs true and false. *)
Module Earlier.

Definition resolve (baseUrl currentUrl href : string) : option string :=
  let href :=
    if Js.startsWith href "/" then Some (baseUrl +:+ href)
    else if Js.startsWith href "#" || Js.startsWith href "mailto:"
            || Js.startsWith href "tel:" then None
    else if Js.startsWith href "http" then Some href
    else Some (currentUrl +:+ href) in
  if Js.truthy href
  then (fun h => hd EmptyString (Js.split h question)) <$> href
  else href.

Definition mapCallback (baseUrl currentUrl m : string) : option string :=
  resolve baseUrl currentUrl (Js.slice m 6 (-1)).

Definition getHrefs (baseUrl text currentUrl : string) : list string :=
  let hrefs := default [] (matchHref text) in
  omap (fun m => keepTruthy (mapCallback baseUrl currentUrl m)) hrefs.

End Earlier.

(** ** The report *)

Abbreviation newline := (String "010"%char EmptyString) (only parsing).

Definition reportHeader : string := "Broken Links: " +:+ newline.

(** The template literal that is added for one broken link. *)
Definition reportEntry (brokenLink : FrontierEntry) : string :=
  newline +:+ "      " +:+ newline +:+ "      " +:+ url brokenLink
  +:+ newline +:+ "      Found on: " +:+ foundOn brokenLink.

(** The loop that builds [output]. *)
Definition reportText (brokenLinks : list FrontierEntry) : string :=
  fold_left (fun output brokenLink => output +:+ reportEntry brokenLink)
            brokenLinks reportHeader.

(** The entries of a report, one after the other. *)
Definition reportEntries (brokenLinks : list FrontierEntry) : string :=
  foldr (fun brokenLink rest => reportEntry brokenLink +:+ rest) EmptyString
        brokenLinks.

(** The ties between the variables of a run that starts from [arg]. *)
Record engineInv (arg : string) (s : State) : Prop := {
  inv_position : queuePosition s ≤ length (queue s);
  inv_seed : queue s !! 0 = Some (seedEntry arg);
  inv_visited_log : visitedUrls s = list_to_set (fetchLog s);
  inv_visited_popped : visitedUrls s = list_to_set (url <$> popped s);
  inv_log_popped : fetchLog s `sublist_of` (url <$> popped s);
  inv_broken_log : (url <$> brokenLinks s) `sublist_of` fetchLog s;
  inv_broken_first :
    ∀ e, e ∈ brokenLinks s →
      ∃ i, i < queuePosition s ∧ queue s !! i = Some e
           ∧ url e ∉ (url <$> take i (queue s));
  inv_foundOn :
    ∀ i e, 0 < i → queue s !! i = Some e →
      foundOn e ∈ fetchLog s
      ∧ Js.startsWith (foundOn e) (startingUrl arg) = true
      ∧ url e ≠ foundOn e
}.

(** * Properties *)

(** ** Strings *)

Section StringFacts.

Lemma app_cons (c : ascii) (s r : string) :
  String c s +:+ r = String c (s +:+ r).
Proof. reflexivity. Qed.

Lemma app_empty (r : string) : EmptyString +:+ r = r.
Proof. reflexivity. Qed.

Lemma append_assoc (a b c : string) : (a +:+ b) +:+ c = a +:+ (b +:+ c).
Proof.
  induction a as [|x a IH]; [done|]. rewrite !app_cons. by rewrite IH.
Qed.

Lemma startsWith_app (p r : string) : Js.startsWith (p +:+ r) p = true.
Proof.
  induction p as [|c p IH]; [done|].
  rewrite app_cons. cbn. by rewrite Ascii.eqb_refl.
Qed.

Lemma startsWith_inv (s p : string) :
  Js.startsWith s p = true → ∃ r, s = p +:+ r.
Proof.
  revert s. induction p as [|c p IH]; intros s H.
  - by exists s.
  - destruct s as [|d s]; [done|]. cbn in H.
    destruct (Ascii.eqb_spec d c) as [->|]; [|done].
    destruct (IH _ H) as [r ->]. by exists r.
Qed.

Lemma startsWith_trans (s p p' : string) :
  Js.startsWith s p = true → Js.startsWith p p' = true →
  Js.startsWith s p' = true.
Proof.
  intros [r ->]%startsWith_inv [r' ->]%startsWith_inv.
  rewrite append_assoc. apply startsWith_app.
Qed.

Lemma startsWith_app_l (s p r : string) :
  Js.startsWith s p = true → Js.startsWith (s +:+ r) p = true.
Proof.
  intros [r' ->]%startsWith_inv.
  rewrite append_assoc. apply startsWith_app.
Qed.

Lemma dropChars_app (p r : string) :
  Js.dropChars (String.length p) (p +:+ r) = r.
Proof.
  induction p as [|c p IH]; [by destruct r|]. by rewrite app_cons.
Qed.

Lemma replace_unfold (s pat rep : string) :
  Js.replace s pat rep =
    if Js.startsWith s pat then rep +:+ Js.dropChars (String.length pat) s
    else match s with
         | EmptyString => EmptyString
         | String c s' => String c (Js.replace s' pat rep)
         end.
Proof. by destruct s. Qed.

(** A pattern at the head of the string is the first occurrence. *)
Lemma replace_head (pat rep r : string) :
  Js.replace (pat +:+ r) pat rep = rep +:+ r.
Proof. by rewrite replace_unfold, startsWith_app, dropChars_app. Qed.

End StringFacts.

(** ** The extractor on small pages *)

(** Two anchors on one line. *)
Example rawHrefs_two :
  rawHrefs (Site.anchor "/a?x=1" +:+ Site.anchor "b.html") = ["/a?x=1"; "b.html"].
Proof. reflexivity. Qed.

(** [.] does not match a line terminator: an href broken over two lines is
    not found. *)
Example rawHrefs_newline :
  rawHrefs (Site.anchor ("/a" +:+ String "010"%char "b") +:+ Site.anchor "/c")
  = ["/c"].
Proof. reflexivity. Qed.

(** [.+?] needs one character: an empty href takes the closing quote as that
    character and runs on to the next quote of the line. *)
Example rawHrefs_empty_href :
  rawHrefs (hrefOpen +:+ String dquote EmptyString +:+ " " +:+ hrefOpen +:+ "/b"
            +:+ String dquote EmptyString)
  = [String dquote EmptyString +:+ " href="].
Proof. reflexivity. Qed.

Example getHrefs_page :
  getHrefs "https://s.test"
    (Site.anchor "/a?x=1" +:+ Site.anchor "#top" +:+ Site.anchor "tel:123"
     +:+ Site.anchor "false" +:+ Site.anchor "b.html?y"
     +:+ Site.anchor "http://e.test/p?z" +:+ Site.anchor "?only")
    "https://s.test/dir/"
  = ["https://s.test/a"; "https://s.test/dir/b.html"; "http://e.test/p";
     "https://s.test/dir/"].
Proof. reflexivity. Qed.

(** ** The query string *)


Section QueryFacts.

Lemma split_head (s : string) :
  hd EmptyString (Js.split s question) = stripQuery s.
Proof.
  induction s as [|c s IH]; [done|].
  cbn. destruct (Ascii.eqb c question); [done|].
  destruct (Js.split s question); cbn in *; by rewrite <- IH.
Qed.

(** The result holds no question mark. *)
Lemma stripQuery_clean (s : string) :
  Js.includes (stripQuery s) "?" = false.
Proof.
  induction s as [|c s IH]; [done|].
  cbn. destruct (Ascii.eqb c question) eqn:E; [done|].
  cbn. by rewrite E, IH.
Qed.

(** It is a prefix of the input, and what is cut begins with the mark. *)
Lemma stripQuery_prefix (s : string) :
  ∃ r, s = stripQuery s +:+ r ∧
       (r = EmptyString ∨ Js.startsWith r "?" = true).
Proof.
  induction s as [|c s (r & IH & Hr)].
  - exists EmptyString. auto.
  - cbn. destruct (Ascii.eqb_spec c question) as [->|].
    + exists (String question s). auto.
    + exists r. rewrite app_cons. split; [by rewrite <- IH | done].
Qed.

(** A string without a question mark is left as it is. *)
Lemma stripQuery_id (s : string) :
  Js.includes s "?" = false → stripQuery s = s.
Proof.
  induction s as [|c s IH]; [done|].
  cbn. destruct (Ascii.eqb c question); [done|].
  cbn. intros H. by rewrite IH.
Qed.


Lemma stripQuery_startsWith (s p : string) :
  Js.includes p "?" = false → Js.startsWith s p = true →
  Js.startsWith (stripQuery s) p = true.
Proof.
  revert s. induction p as [|c p IH]; intros s Hp Hs; [done|].
  destruct s as [|d s]; [done|]. cbn in Hs.
  destruct (Ascii.eqb_spec d c) as [->|]; [|done].
  cbn in Hp.
  destruct (Ascii.eqb c question) eqn:E; [done|].
  cbn. rewrite E. cbn. rewrite Ascii.eqb_refl. apply IH; [|done].
  destruct p; [done|]. cbn in Hp |- *. by destruct (Js.startsWith _ _).
Qed.

End QueryFacts.

(** ** The normaliser *)


Section NormalizeFacts.

(** The truthiness test, the split and the final filter on a string. *)
Lemma keepTruthy_split (x : string) :
  keepTruthy
    (if Js.truthy (Some x)
     then (fun h => hd EmptyString (Js.split h question)) <$> Some x
     else Some x) = kept (stripQuery x).
Proof.
  destruct x as [|c x]; [done|].
  cbn [Js.truthy fmap option_fmap option_map]. rewrite split_head.
  unfold keepTruthy. by destruct (stripQuery (String c x)).
Qed.

Lemma kept_http (h : string) :
  Js.startsWith h "http" = true → kept (stripQuery h) = Some (stripQuery h).
Proof.
  intros H. apply (stripQuery_startsWith h "http" eq_refl) in H.
  by destruct (stripQuery h).
Qed.

Lemma getHrefs_raw (b text cur : string) :
  getHrefs b text cur = omap (fun h => normalize h cur b) (rawHrefs text).
Proof.
  unfold getHrefs, rawHrefs. induction (default [] (matchHref text)) as [|m ms IH];
    [done|].
  cbn. unfold normalize, mapCallback in *. by rewrite IH.
Qed.

End NormalizeFacts.




(** The scheme handling on the two kinds of input its guard tells apart:
    when the argument does not begin with [http], the text [https://] is put
    in front of it; when it is given with [http://], that scheme is replaced
    by [https://]. *)
Theorem startingUrl_scheme (arg : string) :
  (Js.startsWith arg "http" = false → startingUrl arg = "https://" +:+ arg) ∧
  (∀ rest, arg = "http://" +:+ rest → startingUrl arg = "https://" +:+ rest).
Proof.
  split.
  - intros H. unfold startingUrl. by rewrite H.
  - intros rest ->. unfold startingUrl.
    rewrite (startsWith_trans _ "http://" "http" (startsWith_app _ _) eq_refl).
    apply replace_head.
Qed.

(** C8 at its failing input.  The host name [httpbin.org] has no scheme, and
    it begins with the letters http: the guard takes it for a URL with a
    scheme, the replacement finds no [http://] in it, and nothing is put in
    front of it. *)
Lemma startingUrl_bare_host :
  hasScheme "httpbin.org" = false
  ∧ startingUrl "httpbin.org" = "httpbin.org"
  ∧ startingUrl "httpbin.org" ≠ "https://" +:+ "httpbin.org".
Proof. repeat split. vm_compute. discriminate. Qed.

Lemma startingUrl_scheme_witness :
  startingUrl "example.com/docs" = "https://example.com/docs" ∧
  startingUrl "http://example.com/docs" = "https://example.com/docs".
Proof.
  split.
  - apply (proj1 (startingUrl_scheme "example.com/docs")). reflexivity.
  - apply (proj2 (startingUrl_scheme "http://example.com/docs") "example.com/docs").
    reflexivity.
Defined.

(** ** One turn of the loop *)

Section TurnFacts.

Context {engine : JsEngine}.

Variable baseUrl : string.

Lemma pop_exit (s : State) :
  queue s !! queuePosition s = None → pop s = LoopExit.
Proof. unfold pop. by intros ->. Qed.

Lemma pop_visited (s : State) (e : FrontierEntry) :
  queue s !! queuePosition s = Some e → url e ∈ visitedUrls s →
  pop s = Skipped (advance s).
Proof. unfold pop. intros -> H. by rewrite bool_decide_eq_true_2. Qed.

Lemma pop_fresh (s : State) (e : FrontierEntry) :
  queue s !! queuePosition s = Some e → url e ∉ visitedUrls s →
  pop s = ToFetch e (marked e s).
Proof. unfold pop. intros -> H. by rewrite bool_decide_eq_false_2. Qed.

Lemma entry_eta (e : FrontierEntry) :
  {| url := url e; foundOn := foundOn e |} = e.
Proof. by destruct e. Qed.

(** A turn that fetches: the entry is marked, the call is logged, and the
    [try] block either pushes entries or the handler records the entry. *)
Lemma iteration_fresh (fetch : string → FetchOutcome) (s : State)
      (e : FrontierEntry) :
  queue s !! queuePosition s = Some e → url e ∉ visitedUrls s →
  ∃ new broken,
    iteration baseUrl fetch s =
      {| queue := queue s ++ new; queuePosition := S (queuePosition s);
         visitedUrls := {[url e]} ∪ visitedUrls s;
         brokenLinks := brokenLinks s ++ broken;
         fetchLog := fetchLog s ++ [url e] |}
    ∧ ((tryBlock baseUrl ({[url e]} ∪ visitedUrls s) (url e) (fetch (url e))
          = Some new ∧ broken = [])
       ∨ (tryBlock baseUrl ({[url e]} ∪ visitedUrls s) (url e) (fetch (url e))
            = None ∧ new = [] ∧ broken = [e])).
Proof.
  intros He Hfresh. unfold iteration. rewrite (pop_fresh _ _ He Hfresh).
  unfold settle. cbn.
  destruct (tryBlock _ _ _ _) as [hrefs|] eqn:Htry.
  - exists hrefs, []. rewrite app_nil_r. auto.
  - exists [], [e]. rewrite app_nil_r, entry_eta. auto.
Qed.

Lemma iteration_visited (fetch : string → FetchOutcome) (s : State)
      (e : FrontierEntry) :
  queue s !! queuePosition s = Some e → url e ∈ visitedUrls s →
  iteration baseUrl fetch s = advance s.
Proof. intros He Hin. unfold iteration. by rewrite (pop_visited _ _ He Hin). Qed.

Lemma iteration_exit (fetch : string → FetchOutcome) (s : State) :
  queue s !! queuePosition s = None → iteration baseUrl fetch s = s.
Proof. intros He. unfold iteration. by rewrite (pop_exit _ He). Qed.

(** What the [try] block pushes comes out of [getHrefs] on the page just
    fetched, is not yet visited, and is attributed to that page. *)
Lemma tryBlock_pushes (visited : gset string) (u : string) (o : FetchOutcome)
      (new : list FrontierEntry) :
  tryBlock baseUrl visited u o = Some new →
  new = [] ∨
  ∃ r html, o = Resolved r ∧ status r ≠ 404%Z
    ∧ Js.startsWith u baseUrl = true ∧ readHtml r = Some html
    ∧ new = (fun href => {| url := href; foundOn := u |}) <$>
            filter (fun href => href ∉ visited) (getHrefs baseUrl html u).
Proof.
  unfold tryBlock. destruct o as [|r]; [done|].
  destruct (Z.eqb_spec (status r) 404); [done|].
  destruct (Js.startsWith u baseUrl); [|intros [= <-]; by left].
  destruct (readHtml r) as [html|] eqn:Hr; [|done].
  cbn. case_bool_decide; [|done]. intros [= <-]. right. by exists r, html.
Qed.

(** When the [try] block throws. *)
Lemma tryBlock_throws (visited : gset string) (u : string) (o : FetchOutcome) :
  tryBlock baseUrl visited u o = None ↔
  o = Rejected
  ∨ ∃ r, o = Resolved r ∧
         (status r = 404%Z
          ∨ (Js.startsWith u baseUrl = true ∧ readHtml r = None)
          ∨ (Js.startsWith u baseUrl = true
             ∧ ∃ html, readHtml r = Some html
                 ∧ spreadLimit
                   < length (filter (fun href => href ∉ visited)
                                    (getHrefs baseUrl html u)))).
Proof.
  unfold tryBlock. split.
  - destruct o as [|r]; [by left|]. intros H. right. exists r.
    split; [done|].
    destruct (Z.eqb_spec (status r) 404); [by left|]. right.
    destruct (Js.startsWith u baseUrl); [|done].
    destruct (readHtml r) as [html|]; [|by left]. right. split; [done|].
    exists html. split; [done|]. cbn in H. case_bool_decide as Hlen; [done|].
    rewrite length_fmap in Hlen. lia.
  - intros [->|(r & -> & [H|[[H1 H2]|(H1 & html & H2 & H3)]])]; [done|..].
    + by rewrite H.
    + rewrite H1, H2. by destruct (status r =? 404)%Z.
    + rewrite H1, H2. destruct (status r =? 404)%Z; [done|]. cbn.
      rewrite bool_decide_eq_false_2; [done|]. rewrite length_fmap. lia.
Qed.

End TurnFacts.

(** ** Every URL is fetched at most once *)

Section AtMostOnce.

Context {engine : JsEngine}.

Variable baseUrl : string.

Lemma loggedOnce_iteration (fetch : string → FetchOutcome) (s : State) :
  loggedOnce s → loggedOnce (iteration baseUrl fetch s).
Proof.
  intros [Hnd Hin].
  destruct (queue s !! queuePosition s) as [e|] eqn:He.
  - destruct (decide (url e ∈ visitedUrls s)) as [Hv|Hv].
    + by rewrite (iteration_visited _ _ _ _ He Hv).
    + destruct (iteration_fresh baseUrl fetch _ _ He Hv)
        as (new & broken & -> & _).
      split; cbn.
      * apply NoDup_app. split; [done|]. split; [|apply NoDup_singleton].
        intros u Hu ->%list_elem_of_singleton. by apply Hv, Hin.
      * intros u [Hu| ->%list_elem_of_singleton]%elem_of_app; set_solver.
  - by rewrite (iteration_exit _ _ _ He).
Qed.

Lemma loggedOnce_turns (web : Transport) (n : nat) (s : State) :
  loggedOnce s → loggedOnce (turns baseUrl n web s).
Proof.
  revert s. induction n as [|n IH]; intros s Hs; [done|].
  cbn. apply IH. by apply loggedOnce_iteration.
Qed.

(** A run that ends is some number of turns, and ends with the loop test
    false. *)
Lemma runLinkCheck_turns (web : Transport) (fuel : nat) (s final : State) :
  runLinkCheck baseUrl fuel web s = Some final →
  (∃ n, n ≤ fuel ∧ final = turns baseUrl n web s)
  ∧ queuePosition final ≥ length (queue final).
Proof.
  revert s. induction fuel as [|fuel IH]; intros s; cbn; case_bool_decide;
    try done.
  - intros [= <-]. split; [by exists 0 | lia].
  - intros [[n [Hn ->]] Hend]%IH. split; [|done].
    exists (S n). split; [lia|done].
  - intros [= <-]. split; [exists 0; split; [lia|done] | lia].
Qed.

End AtMostOnce.

Lemma loggedOnce_initial (arg : string) : loggedOnce (initial arg).
Proof. split; cbn; [apply NoDup_nil_2 | by intros u ?%elem_of_nil]. Qed.

(** C1.  For every run and every URL, the engine fetches the URL at most
    once: the log of [fetch] calls never holds a URL twice, after any number
    of turns and at the end of the run.  An entry is marked visited when it
    is popped: the membership test and the mark come before the call, whose
    outcome is only used in a state where the URL is already visited; and a
    popped entry whose URL is already visited only moves the position on, with
    no fetch and no report entry. *)
Theorem fetch_at_most_once {engine : JsEngine}
    (arg : string) (web : Transport) :
  (∀ n, NoDup (fetchLog (turns (startingUrl arg) n web (initial arg))))
  ∧ (∀ fuel final, main fuel web arg = Some final → NoDup (fetchLog final))
  ∧ (∀ (fetch : string → FetchOutcome) (s : State) (e : FrontierEntry),
       queue s !! queuePosition s = Some e →
       (url e ∈ visitedUrls s →
          iteration (startingUrl arg) fetch s = advance s
          ∧ fetchLog (iteration (startingUrl arg) fetch s) = fetchLog s
          ∧ brokenLinks (iteration (startingUrl arg) fetch s) = brokenLinks s)
       ∧ (url e ∉ visitedUrls s →
            pop s = ToFetch e (marked e s)
            ∧ url e ∈ visitedUrls (marked e s)
            ∧ iteration (startingUrl arg) fetch s =
                settle (startingUrl arg) e (fetch (url e))
                       (logFetch (url e) (marked e s)))).
Proof.
  split; [|split].
  - intros n. apply loggedOnce_turns, loggedOnce_initial.
  - intros fuel final [[n [_ ->]] _]%runLinkCheck_turns.
    apply loggedOnce_turns, loggedOnce_initial.
  - intros fetch s e He. split.
    + intros Hv. by rewrite (iteration_visited _ fetch s e He Hv).
    + intros Hv. split; [by apply pop_fresh|]. split; [cbn; set_solver|].
      unfold iteration. by rewrite (pop_fresh _ _ He Hv).
Qed.

Lemma fetch_at_most_once_witness :
  ∃ final, main (engine := Site.node) 10 Site.web "s.test" = Some final
           ∧ queuePosition final = 6 ∧ length (fetchLog final) = 5
           ∧ NoDup (fetchLog final).
Proof.
  exists (turns (engine := Site.node) (startingUrl "s.test") 6 Site.web (initial "s.test")).
  assert (main (engine := Site.node) 10 Site.web "s.test"
          = Some (turns (engine := Site.node) (startingUrl "s.test") 6 Site.web (initial "s.test")))
    as Hrun by (vm_compute; reflexivity).
  split; [exact Hrun|]. split; [vm_compute; reflexivity|].
  split; [vm_compute; reflexivity|].
  exact (proj1 (proj2 (fetch_at_most_once "s.test" Site.web)) 10 _ Hrun).
Defined.

(** ** Failure classification *)

(** C10.  For every in-origin URL whose fetch returns a status other than
    404 and a response without a content-type header, processing its entry
    records the URL as a broken link, with the page it was found on, and
    pushes nothing: the page is not taken as a success with an empty body. *)
Theorem missing_content_type_is_broken {engine : JsEngine}
    (baseUrl : string) (fetch : string → FetchOutcome) (s : State)
    (e : FrontierEntry) (r : Response) :
  queue s !! queuePosition s = Some e → url e ∉ visitedUrls s →
  Js.startsWith (url e) baseUrl = true →
  fetch (url e) = Resolved r → status r ≠ 404%Z → contentType r = None →
  brokenLinks (iteration baseUrl fetch s) = brokenLinks s ++ [e]
  ∧ queue (iteration baseUrl fetch s) = queue s.
Proof.
  intros He Hv Hin Hf Hst Hct.
  destruct (iteration_fresh baseUrl fetch _ _ He Hv)
    as (new & broken & -> & [[Htry _]|(_ & -> & ->)]); cbn.
  - exfalso. revert Htry. rewrite Hf. unfold tryBlock, readHtml.
    rewrite Hin, Hct. by destruct (status r =? 404)%Z.
  - by rewrite app_nil_r.
Qed.

Lemma missing_content_type_is_broken_witness :
  let r := {| status := 204; contentType := None; text := Some EmptyString |} in
  let s := initial "s.test" in
  brokenLinks (iteration (engine := Site.node) "https://s.test" (fun _ => Resolved r) s)
    = [seedEntry "s.test"]
  ∧ queue (iteration (engine := Site.node) "https://s.test" (fun _ => Resolved r) s) = queue s.
Proof.
  cbv zeta.
  apply (missing_content_type_is_broken "https://s.test" _ (initial "s.test")
           (seedEntry "s.test")
           {| status := 204; contentType := None; text := Some EmptyString |}).
  - reflexivity.
  - cbn. set_solver.
  - reflexivity.
  - reflexivity.
  - cbn. discriminate.
  - reflexivity.
Defined.

(** C2 at its failing input.  The seed answers 200 OK without a content-type
    header: no transport error and no 404, and yet the run reports the seed
    as a broken link. *)
Lemma ok_without_content_type_reported {engine : JsEngine} :
  let ok := {| status := 200; contentType := None; text := Some EmptyString |} in
  brokenLinks <$> main 5 (fun _ _ => Resolved ok) "s.test"
    = Some [{| url := "https://s.test"; foundOn := "base URL" |}].
Proof. vm_compute. reflexivity. Qed.

(** The classification, exactly: a processed entry is recorded as broken when
    the fetch is rejected, when the status is 404, when the URL is in-origin
    and the header test or the body read throws, or when the page has more
    unvisited links than one spread call can push; every other outcome records
    nothing, whatever the status. *)
Lemma broken_iff {engine : JsEngine}
    (baseUrl : string) (fetch : string → FetchOutcome)
      (s : State) (e : FrontierEntry) :
  queue s !! queuePosition s = Some e → url e ∉ visitedUrls s →
  (brokenLinks (iteration baseUrl fetch s) = brokenLinks s ++ [e]
   ∧ (fetch (url e) = Rejected
      ∨ ∃ r, fetch (url e) = Resolved r ∧
             (status r = 404%Z
              ∨ (Js.startsWith (url e) baseUrl = true ∧ readHtml r = None)
              ∨ (Js.startsWith (url e) baseUrl = true
                 ∧ ∃ html, readHtml r = Some html
                     ∧ spreadLimit
                       < length (filter (fun href =>
                                           href ∉ {[url e]} ∪ visitedUrls s)
                                        (getHrefs baseUrl html (url e)))))))
  ∨ (brokenLinks (iteration baseUrl fetch s) = brokenLinks s
     ∧ ∃ r, fetch (url e) = Resolved r ∧ status r ≠ 404%Z
            ∧ (Js.startsWith (url e) baseUrl = true → is_Some (readHtml r))).
Proof.
  intros He Hv.
  destruct (iteration_fresh baseUrl fetch _ _ He Hv)
    as (new & broken & -> & [[Htry ->]|(Htry & -> & ->)]); cbn.
  - right. rewrite app_nil_r. split; [done|].
    revert Htry. unfold tryBlock. destruct (fetch (url e)) as [|r]; [done|].
    destruct (Z.eqb_spec (status r) 404); [done|]. intros Htry.
    exists r. split; [done|]. split; [done|]. intros Hin. rewrite Hin in Htry.
    destruct (readHtml r); [by eexists | done].
  - left. split; [done|]. by apply tryBlock_throws in Htry.
Qed.

(** ** Hrefs that are not pages *)

Lemma omap_none {A B : Type} (f : A → option B) (l : list A) :
  (∀ x, x ∈ l → f x = None) → omap f l = [].
Proof.
  induction l as [|x l IH]; intros H; [done|].
  cbn. rewrite (H x) by left. apply IH. intros y Hy. apply H. by right.
Qed.

Lemma getHrefs_empty_page (baseUrl cur : string) :
  getHrefs baseUrl EmptyString cur = [].
Proof. reflexivity. Qed.

(** C9.  For every page whose anchors hold exactly the hrefs [#section],
    [mailto:x@y.com] and [true], all three are discarded by the normaliser,
    and processing that page adds no entry to the frontier. *)
Theorem unfetchable_hrefs_add_nothing {engine : JsEngine}
    (baseUrl page : string) :
  rawHrefs page ≡ₚ ["#section"; "mailto:x@y.com"; "true"] →
  (∀ h cur, h ∈ rawHrefs page → normalize h cur baseUrl = None)
  ∧ (∀ cur, getHrefs baseUrl page cur = [])
  ∧ (∀ (fetch : string → FetchOutcome) (s : State) (e : FrontierEntry)
       (r : Response),
       queue s !! queuePosition s = Some e →
       fetch (url e) = Resolved r → text r = Some page →
       queue (iteration baseUrl fetch s) = queue s).
Proof.
  intros Hperm.
  assert (∀ h cur, h ∈ rawHrefs page → normalize h cur baseUrl = None) as Hnone.
  { intros h cur Hh. rewrite Hperm in Hh.
    repeat (apply elem_of_cons in Hh as [->|Hh]; [reflexivity|]).
    by apply elem_of_nil in Hh. }
  assert (∀ cur, getHrefs baseUrl page cur = []) as Hget.
  { intros cur. rewrite getHrefs_raw. apply omap_none. intros h. apply Hnone. }
  split; [done|]. split; [done|].
  intros fetch s e r He Hf Hpage.
  destruct (decide (url e ∈ visitedUrls s)) as [Hv|Hv].
  - by rewrite (iteration_visited _ _ _ _ He Hv).
  - destruct (iteration_fresh baseUrl fetch _ _ He Hv)
      as (new & broken & -> & [[Htry _]|(_ & -> & _)]); cbn;
      [|by rewrite app_nil_r].
    apply tryBlock_pushes in Htry
      as [->|(r' & html & Hr' & _ & _ & Hread & ->)]; [by rewrite app_nil_r|].
    rewrite Hf in Hr'. injection Hr' as <-.
    assert (getHrefs baseUrl html (url e) = []) as ->; [|by rewrite app_nil_r].
    revert Hread. unfold readHtml. destruct (contentType r) as [ct|]; [|done].
    cbn. destruct (Js.includes ct "text/html").
    + rewrite Hpage. by intros [= <-].
    + by intros [= <-].
Qed.

Lemma unfetchable_hrefs_add_nothing_witness :
  let page := Site.anchor "#section" +:+ Site.anchor "mailto:x@y.com"
              +:+ Site.anchor "true" in
  rawHrefs page = ["#section"; "mailto:x@y.com"; "true"]
  ∧ getHrefs "https://s.test" page "https://s.test" = []
  ∧ queue (iteration (engine := Site.node) "https://s.test" (fun _ => Site.html page) (initial "s.test"))
    = queue (initial "s.test").
Proof.
  cbv zeta.
  set (page := Site.anchor "#section" +:+ Site.anchor "mailto:x@y.com"
               +:+ Site.anchor "true").
  assert (rawHrefs page = ["#section"; "mailto:x@y.com"; "true"]) as Hraw
    by (vm_compute; reflexivity).
  assert (rawHrefs page ≡ₚ ["#section"; "mailto:x@y.com"; "true"]) as Hperm
    by (by rewrite Hraw).
  split; [exact Hraw|]. split.
  - exact (proj1 (proj2 (unfetchable_hrefs_add_nothing (engine := Site.node) "https://s.test" page Hperm)) _).
  - exact (proj2 (proj2 (unfetchable_hrefs_add_nothing (engine := Site.node) "https://s.test" page Hperm))
             (fun _ => Site.html page) (initial "s.test") (seedEntry "s.test")
             _ eq_refl eq_refl eq_refl).
Defined.

(** ** The URLs of the frontier *)


Section FrontierFacts.

Context {engine : JsEngine}.

Lemma kept_some (y x : string) : kept y = Some x → x = y.
Proof. destruct y; [done|]. by intros [= <-]. Qed.

Lemma normalize_some (h p b x : string) :
  normalize h p b = Some x →
  ∃ y, x = stripQuery y ∧
       (y = b +:+ h ∨ (y = h ∧ Js.startsWith h "http" = true) ∨ y = p +:+ h).
Proof.
  unfold normalize, resolve.
  destruct (Js.startsWith h "/").
  { rewrite keepTruthy_split. intros ->%kept_some. eexists. eauto. }
  destruct (Js.startsWith h "#" || Js.startsWith h "mailto:"
            || Js.startsWith h "tel:"); [done|].
  destruct (bool_decide (h = "true") || bool_decide (h = "false")); [done|].
  destruct (Js.startsWith h "http") eqn:Hhttp.
  - rewrite keepTruthy_split. intros ->%kept_some. exists h. auto.
  - rewrite keepTruthy_split. intros ->%kept_some. eexists. eauto.
Qed.

Lemma getHrefs_httpNoQuery (b html cur h : string) :
  Js.startsWith b "http" = true → Js.startsWith cur "http" = true →
  h ∈ getHrefs b html cur → httpNoQuery h.
Proof.
  intros Hb Hcur. rewrite getHrefs_raw.
  intros (raw & _ & Hn)%list_elem_of_omap.
  apply normalize_some in Hn as (y & -> & Hy).
  split; [|apply stripQuery_clean].
  apply stripQuery_startsWith; [done|].
  destruct Hy as [->|[[-> Hh]| ->]]; [|done|]; by apply startsWith_app_l.
Qed.

Lemma startingUrl_http (arg : string) :
  Js.startsWith (startingUrl arg) "http" = true.
Proof.
  unfold startingUrl. destruct (Js.startsWith arg "http") eqn:Harg;
    [|apply (startsWith_app "http")].
  apply startsWith_inv in Harg as [r ->].
  rewrite replace_unfold.
  destruct (Js.startsWith _ "http://"); [apply (startsWith_app "http")|].
  rewrite !app_cons, app_empty. cbn.
  destruct r as [|c r]; [done|]. destruct (c =? ":")%char; [|done].
  destruct r as [|c' r]; [done|]. destruct (c' =? "/")%char; [|done].
  destruct r as [|c'' r]; [done|]. by destruct (c'' =? "/")%char.
Qed.

Lemma seedThenStripped_iteration (arg : string) (fetch : string → FetchOutcome)
      (s : State) :
  seedThenStripped arg s →
  seedThenStripped arg (iteration (startingUrl arg) fetch s).
Proof.
  intros (Hb & rest & Hq & Hrest). split; [done|].
  destruct (queue s !! queuePosition s) as [e|] eqn:He;
    [|rewrite (iteration_exit _ _ _ He); eauto].
  destruct (decide (url e ∈ visitedUrls s)) as [Hv|Hv];
    [rewrite (iteration_visited _ _ _ _ He Hv); eauto|].
  destruct (iteration_fresh (startingUrl arg) fetch _ _ He Hv)
    as (new & broken & -> & [[Htry _]|(_ & -> & _)]); cbn;
    [|rewrite app_nil_r; eauto].
  exists (rest ++ new). rewrite Hq. split; [done|].
  apply Forall_app. split; [done|].
  apply tryBlock_pushes in Htry
    as [->|(r & html & _ & _ & _ & _ & ->)]; [done|].
  assert (Js.startsWith (url e) "http" = true) as Hcur.
  { apply list_elem_of_lookup_2 in He. rewrite Hq in He.
    apply elem_of_cons in He as [->|He]; [done|].
    rewrite Forall_forall in Hrest. by apply Hrest. }
  apply Forall_fmap, Forall_forall. intros h [_ Hh]%list_elem_of_filter.
  by apply (getHrefs_httpNoQuery (startingUrl arg) html (url e)).
Qed.

Lemma seedThenStripped_turns (arg : string) (web : Transport) (n : nat)
      (s : State) :
  seedThenStripped arg s →
  seedThenStripped arg (turns (startingUrl arg) n web s).
Proof.
  revert s. induction n as [|n IH]; intros s Hs; [done|].
  cbn. apply IH. by apply seedThenStripped_iteration.
Qed.

Lemma seedThenStripped_initial (arg : string) :
  seedThenStripped arg (initial arg).
Proof. split; [apply startingUrl_http|]. by exists []. Qed.






End FrontierFacts.





(** ** Termination *)

Section Termination.

Context {engine : JsEngine}.

Variable baseUrl : string.
Variable web : Transport.

(** A finite set of URLs that holds every link of every page the engine
    scans: the link graph as the engine sees it. *)
Variable graph : gset string.

Hypothesis graph_closed :
  ∀ (t : nat) (u : string) (r : Response) (html : string),
    u ∈ graph → Js.startsWith u baseUrl = true →
    web t u = Resolved r → status r ≠ 404%Z → readHtml r = Some html →
    ∀ h, h ∈ getHrefs baseUrl html u → h ∈ graph.


Lemma inGraph_turn (s : State) :
  inGraph graph s → inGraph graph (turn baseUrl web s).
Proof.
  intros (Hq & Hlog & Hpos). unfold turn.
  destruct (queue s !! queuePosition s) as [e|] eqn:He;
    [|by rewrite (iteration_exit _ _ _ He)].
  pose proof (lookup_lt_Some _ _ _ He) as Hlt.
  pose proof (Hq e (list_elem_of_lookup_2 _ _ _ He)) as Hu.
  destruct (decide (url e ∈ visitedUrls s)) as [Hv|Hv].
  { rewrite (iteration_visited _ _ _ _ He Hv). repeat split; cbn; auto. }
  destruct (iteration_fresh baseUrl (web (length (fetchLog s))) _ _ He Hv)
    as (new & broken & -> & Hnew).
  repeat split; cbn.
  - intros x [Hx|Hx]%elem_of_app; [by apply Hq|].
    destruct Hnew as [[Htry _]|(_ & -> & _)]; [|by apply elem_of_nil in Hx].
    apply tryBlock_pushes in Htry
      as [->|(r & html & Hr & Hst & Hin & Hread & ->)];
      [by apply elem_of_nil in Hx|].
    apply list_elem_of_fmap in Hx as (h & -> & [_ Hh]%list_elem_of_filter).
    cbn. by apply (graph_closed _ _ _ _ Hu Hin Hr Hst Hread).
  - intros u [Hx| ->%list_elem_of_singleton]%elem_of_app; auto.
  - rewrite length_app. lia.
Qed.

Lemma inGraph_turns (n : nat) (s : State) :
  inGraph graph s → inGraph graph (turns baseUrl n web s).
Proof.
  revert s. induction n as [|n IH]; intros s Hs; [done|].
  cbn. apply IH. by apply inGraph_turn.
Qed.

(** The measure of the loop: the URLs of the graph not yet visited, then
    the entries not yet popped. *)
Lemma loop_ends (n : nat) :
  ∀ (m : nat) (s : State),
    inGraph graph s →
    size (graph ∖ visitedUrls s) ≤ n →
    length (queue s) - queuePosition s ≤ m →
    ∃ fuel final, runLinkCheck baseUrl fuel web s = Some final.
Proof.
  induction n as [n IHn] using lt_wf_ind.
  induction m as [m IHm] using lt_wf_ind.
  intros s Hs Hn Hm.
  destruct (decide (queuePosition s < length (queue s))) as [Hlt|Hge];
    [|exists 0, s; cbn; by rewrite bool_decide_eq_false_2].
  assert (∃ fuel final,
            runLinkCheck baseUrl fuel web (turn baseUrl web s) = Some final)
    as (fuel & final & Hrun);
    [|exists (S fuel), final; cbn; by rewrite bool_decide_eq_true_2].
  pose proof (inGraph_turn s Hs) as Hs'. revert Hs'. unfold turn.
  destruct (lookup_lt_is_Some_2 _ _ Hlt) as [e He].
  destruct (decide (url e ∈ visitedUrls s)) as [Hv|Hv].
  - rewrite (iteration_visited _ _ _ _ He Hv). intros Hs'.
    apply (IHm (length (queue s) - S (queuePosition s))); cbn; [lia|done..].
  - destruct (iteration_fresh baseUrl (web (length (fetchLog s))) _ _ He Hv)
      as (new & broken & -> & _).
    intros Hs'.
    apply (IHn (size (graph ∖ ({[url e]} ∪ visitedUrls s))))
      with (m := length (queue s ++ new) - S (queuePosition s)); cbn;
      [|done..].
    eapply Nat.lt_le_trans; [|exact Hn]. apply subset_size.
    destruct Hs as (Hq & _ & _).
    pose proof (Hq e (list_elem_of_lookup_2 _ _ _ He)). set_solver.
Qed.

End Termination.

Lemma size_log (graph : gset string) (l : list string) :
  NoDup l → (∀ u, u ∈ l → u ∈ graph) → length l ≤ size graph.
Proof.
  intros Hnd Hin. rewrite <- (size_list_to_set (C := gset string) l Hnd).
  apply subseteq_size. set_solver.
Qed.

(** C3.  For every finite link graph, cyclic or not, that holds the seed and
    the links of every in-origin page it holds, the crawl loop terminates:
    the run ends with the queue position at the final length of the
    frontier, after at most one fetch per URL of the graph. *)
Theorem crawl_terminates {engine : JsEngine}
    (arg : string) (web : Transport) (graph : gset string) :
  startingUrl arg ∈ graph →
  (∀ (t : nat) (u : string) (r : Response) (html : string),
     u ∈ graph → Js.startsWith u (startingUrl arg) = true →
     web t u = Resolved r → status r ≠ 404%Z → readHtml r = Some html →
     ∀ h, h ∈ getHrefs (startingUrl arg) html u → h ∈ graph) →
  ∃ fuel final,
    main fuel web arg = Some final
    ∧ queuePosition final = length (queue final)
    ∧ length (fetchLog final) ≤ size graph.
Proof.
  intros Hseed Hclosed.
  assert (inGraph graph (initial arg)) as Hinit.
  { repeat split; cbn; [|by intros u ?%elem_of_nil|lia].
    by intros e ->%list_elem_of_singleton. }
  destruct (loop_ends (startingUrl arg) web graph Hclosed _ _ (initial arg)
              Hinit (Nat.le_refl _) (Nat.le_refl _)) as (fuel & final & Hrun).
  exists fuel, final. split; [done|].
  destruct (runLinkCheck_turns _ _ _ _ _ Hrun) as [[n [_ ->]] Hend].
  destruct (inGraph_turns (startingUrl arg) web graph Hclosed n _ Hinit)
    as (_ & Hlog & Hpos).
  split; [lia|]. apply size_log; [|done].
  apply (loggedOnce_turns (startingUrl arg) web n _ (loggedOnce_initial arg)).
Qed.

(** The site of [Site.web] has a cycle: /a links to the root page, which
    links back to /a; and /b links to /c as /a does. *)
Lemma site_closed (t : nat) (u : string) (r : Response) (html : string) :
  u ∈ Site.graph → Js.startsWith u (startingUrl "s.test") = true →
  Site.web t u = Resolved r → status r ≠ 404%Z → readHtml r = Some html →
  ∀ h, h ∈ getHrefs (startingUrl "s.test") html u → h ∈ Site.graph.
Proof.
  intros Hu _ Hr Hst Hread h Hh. unfold Site.graph in Hu.
  rewrite elem_of_list_to_set in Hu.
  repeat (apply elem_of_cons in Hu as [->|Hu]);
    [..|by apply elem_of_nil in Hu];
    vm_compute in Hr; injection Hr as <-;
    vm_compute in Hread; try discriminate; injection Hread as <-;
    vm_compute in Hh;
    repeat (apply elem_of_cons in Hh as [->|Hh]);
    try (by apply elem_of_nil in Hh);
    apply (bool_decide_unpack _); by vm_compute.
Qed.

Lemma crawl_terminates_witness :
  ∃ fuel final,
    main (engine := Site.node) fuel Site.web "s.test" = Some final
    ∧ queuePosition final = length (queue final)
    ∧ length (fetchLog final) ≤ size Site.graph.
Proof.
  apply (crawl_terminates "s.test" Site.web Site.graph).
  - apply (bool_decide_unpack _). by vm_compute.
  - apply site_closed.
Defined.

(** ** Breadth-first order *)

Section BreadthFirst.

Context {engine : JsEngine}.

Variable baseUrl : string.
Variable web : Transport.

Lemma startsWith_refl (s : string) : Js.startsWith s s = true.
Proof. induction s as [|c s IH]; [done|]. cbn. by rewrite Ascii.eqb_refl. Qed.

(** A turn on an in-origin page with known links, few enough for one
    spread call. *)
Lemma turn_scans (s : State) (e : FrontierEntry) (links : list string) :
  queue s !! queuePosition s = Some e → url e ∉ visitedUrls s →
  Js.startsWith (url e) baseUrl = true →
  linksTo baseUrl (web (length (fetchLog s)) (url e)) (url e) links →
  length links ≤ spreadLimit →
  turn baseUrl web s =
    {| queue := queue s ++
                ((fun href => {| url := href; foundOn := url e |}) <$>
                 filter (fun href => href ∉ {[url e]} ∪ visitedUrls s) links);
       queuePosition := S (queuePosition s);
       visitedUrls := {[url e]} ∪ visitedUrls s;
       brokenLinks := brokenLinks s;
       fetchLog := fetchLog s ++ [url e] |}.
Proof.
  intros He Hv Hin (r & html & Hr & Hst & Hread & Hlinks) Hlen.
  unfold turn, iteration. rewrite (pop_fresh _ _ He Hv).
  unfold settle, tryBlock. cbn. rewrite Hr, Hin, Hread.
  destruct (Z.eqb_spec (status r) 404); [done|]. cbn. rewrite Hlinks.
  rewrite bool_decide_eq_true_2; [done|].
  rewrite length_fmap. etrans; [apply length_filter|done].
Qed.

(** Any turn on a fresh entry pushes at the tail and logs the call. *)
Lemma turn_fresh (s : State) (e : FrontierEntry) :
  queue s !! queuePosition s = Some e → url e ∉ visitedUrls s →
  ∃ new,
    queue (turn baseUrl web s) = queue s ++ new
    ∧ queuePosition (turn baseUrl web s) = S (queuePosition s)
    ∧ visitedUrls (turn baseUrl web s) = {[url e]} ∪ visitedUrls s
    ∧ fetchLog (turn baseUrl web s) = fetchLog s ++ [url e]
    ∧ (linksNowhere baseUrl (web (length (fetchLog s)) (url e)) (url e) →
       new = []).
Proof.
  intros He Hv. unfold turn.
  destruct (iteration_fresh baseUrl (web (length (fetchLog s))) _ _ He Hv)
    as (new & broken & -> & [[Htry _]|(_ & -> & _)]); exists new || exists [];
    repeat split; try done.
  intros Hno. by apply (Hno _ _ Htry).
Qed.

(** Past the end of the frontier a turn changes nothing. *)
Lemma turns_exit (n : nat) (s : State) :
  ¬ queuePosition s < length (queue s) → turns baseUrl n web s = s.
Proof.
  intros Hend. induction n as [|n IH]; [done|].
  cbn. unfold turn. rewrite iteration_exit; [done|].
  apply lookup_ge_None. lia.
Qed.

(** A run whose loop test is false after [fuel] turns ends within them. *)
Lemma runLinkCheck_at_turns (fuel : nat) (s : State) :
  ¬ queuePosition (turns baseUrl fuel web s)
    < length (queue (turns baseUrl fuel web s)) →
  runLinkCheck baseUrl fuel web s = Some (turns baseUrl fuel web s).
Proof.
  revert s. induction fuel as [|fuel IH]; intros s Hend; cbn in *.
  - by rewrite bool_decide_eq_false_2.
  - case_bool_decide as Hs; [by apply IH|].
    f_equal. symmetry. exact (turns_exit (S fuel) s Hs).
Qed.

End BreadthFirst.

Section FourTurns.

Context {engine : JsEngine}.

Variables (arg : string) (web : Transport) (A B C : string) (more : list string).

Let seed := startingUrl arg.

Hypothesis distinct : NoDup [seed; A; B; C].
Hypothesis seed_links : linksTo seed (web 0 seed) seed [A; B].
Hypothesis A_in_origin : Js.startsWith A seed = true.
Hypothesis A_links : linksTo seed (web 1 A) A (C :: more).
Hypothesis seed_fits : 2 ≤ spreadLimit.
Hypothesis A_fits : length (C :: more) ≤ spreadLimit.

(** The frontier after four turns: the four entries in the order of their
    discovery, then whatever else [A], [B] and [C] link to. *)
Lemma four_turns :
  ∃ tail,
    let s := turns seed 4 web (initial arg) in
    queue s = [seedEntry arg; {| url := A; foundOn := seed |};
               {| url := B; foundOn := seed |}; {| url := C; foundOn := A |}]
              ++ tail
    ∧ queuePosition s = 4
    ∧ fetchLog s = [seed; A; B; C]
    ∧ (more = [] → linksNowhere seed (web 2 B) B →
       linksNowhere seed (web 3 C) C → tail = []).
Proof.
  assert (seed ≠ A ∧ seed ≠ B ∧ seed ≠ C ∧ A ≠ B ∧ A ≠ C ∧ B ≠ C)
    as (HsA & HsB & HsC & HAB & HAC & HBC).
  { pose proof distinct as Hnd.
    rewrite !NoDup_cons, !not_elem_of_cons in Hnd.
    destruct Hnd as ((? & ? & ? & _) & (? & ? & _) & (? & _) & _). done. }
  cbn [turns].
  (* the seed *)
  rewrite (turn_scans seed web (initial arg) (seedEntry arg) [A; B]);
    [|done|cbn; set_solver|apply startsWith_refl|exact seed_links
     |exact seed_fits].
  cbn [queue queuePosition visitedUrls brokenLinks fetchLog initial seedEntry url].
  rewrite !filter_cons_True, filter_nil by set_solver.
  cbn [fmap list_fmap app].
  (* A *)
  match goal with
  | |- context [turn seed web (Build_State ?q ?p ?v ?b ?l)] =>
      rewrite (turn_scans seed web (Build_State q p v b l)
                 {| url := A; foundOn := seed |} (C :: more));
        [|done|cbn; set_solver|done|exact A_links|exact A_fits]
  end.
  cbn [queue queuePosition visitedUrls brokenLinks fetchLog url app].
  rewrite filter_cons_True by set_solver.
  cbn [fmap list_fmap app].
  (* B, whatever it answers *)
  match goal with
  | |- context [turn seed web (Build_State ?q ?p ?v ?b ?l)] =>
      set (s2 := Build_State q p v b l)
  end.
  destruct (turn_fresh seed web s2 {| url := B; foundOn := seed |})
    as (newB & HqB & HpB & HvB & HlB & HnB); [done|cbn; set_solver|].
  (* C *)
  destruct (turn_fresh seed web (turn seed web s2) {| url := C; foundOn := A |})
    as (newC & HqC & HpC & HvC & HlC & HnC).
  { by rewrite HqB, HpB. }
  { rewrite HvB. cbn. set_solver. }
  exists (((fun href => {| url := href; foundOn := A |}) <$>
           filter (fun href => href ∉ ({[A]} ∪ ({[startingUrl arg]} ∪ ∅)
                                       : gset string)) more)
          ++ newB ++ newC).
  cbv zeta. rewrite HqC, HqB, HpC, HpB, HlC, HlB. subst s2. cbn.
  split; [by rewrite <- !app_assoc|]. split; [done|]. split; [done|].
  intros Hmore HB HC. rewrite HlB in HnC. cbn in HnB, HnC.
  rewrite (HnB HB), (HnC HC), Hmore. done.
Qed.

End FourTurns.

(** C5.  Fetches are issued in breadth-first order: in every run where the
    seed page links to [A] then [B] and the page [A] links to [C] first, the
    four URLs being distinct and the links of either page few enough for the
    one spread call that pushes them, the first four fetches are the seed,
    [A], [B] and [C] in this order, whatever [B] answers; and when these are
    all the links there are, the run ends after them and the whole sequence
    of fetched URLs is seed, [A], [B], [C].  Entries are popped from the head
    of the frontier and discovered links are pushed at its tail. *)
Theorem breadth_first_order {engine : JsEngine} (arg : string) (web : Transport)
    (A B C : string) (more : list string) :
  let seed := startingUrl arg in
  NoDup [seed; A; B; C] →
  linksTo seed (web 0 seed) seed [A; B] →
  Js.startsWith A seed = true →
  linksTo seed (web 1 A) A (C :: more) →
  2 ≤ spreadLimit → length (C :: more) ≤ spreadLimit →
  fetchLog (turns seed 4 web (initial arg)) = [seed; A; B; C]
  ∧ (more = [] → linksNowhere seed (web 2 B) B →
     linksNowhere seed (web 3 C) C →
     ∃ final, main 4 web arg = Some final
              ∧ fetchLog final = [seed; A; B; C]).
Proof.
  intros seed Hnd Hseed HA HAlinks Hfit HAfit. subst seed.
  destruct (four_turns arg web A B C more Hnd Hseed HA HAlinks Hfit HAfit)
    as (tail & Hq & Hp & Hlog & Htail).
  split; [exact Hlog|].
  intros Hmore HB HC. exists (turns (startingUrl arg) 4 web (initial arg)).
  split; [|exact Hlog].
  apply runLinkCheck_at_turns.
  rewrite Hq, Hp, (Htail Hmore HB HC). cbn. lia.
Qed.

Lemma breadth_first_order_witness :
  ∃ final, main (engine := Site.node) 4 Site.tree "s.test" = Some final
           ∧ fetchLog final = ["https://s.test"; "https://s.test/a";
                               "https://s.test/b"; "https://s.test/c"].
Proof.
  apply (breadth_first_order (engine := Site.node) "s.test" Site.tree
           "https://s.test/a" "https://s.test/b" "https://s.test/c" []).
  - apply (bool_decide_unpack _). by vm_compute.
  - eexists _, _. split; [reflexivity|]. split; [discriminate|].
    split; [reflexivity|]. by vm_compute.
  - reflexivity.
  - eexists _, _. split; [reflexivity|]. split; [discriminate|].
    split; [reflexivity|]. by vm_compute.
  - cbn. lia.
  - cbn. lia.
  - reflexivity.
  - intros visited new. by intros [= <-].
  - intros visited new. discriminate.
Defined.

(** * Further properties *)

(** ** What the engine keeps true of its variables *)

Lemma popped_advance (s : State) (e : FrontierEntry) :
  queue s !! queuePosition s = Some e → popped (advance s) = popped s ++ [e].
Proof. intros He. unfold popped. cbn. by apply take_S_r. Qed.

Lemma engineInv_initial (arg : string) : engineInv arg (initial arg).
Proof.
  split; cbn; try done.
  - lia.
  - intros e He. by apply elem_of_nil in He.
  - intros [|i] e Hi; [lia|done].
Qed.

Lemma engineInv_iteration {engine : JsEngine}
    (arg : string) (fetch : string → FetchOutcome)
      (s : State) :
  engineInv arg s → engineInv arg (iteration (startingUrl arg) fetch s).
Proof.
  intros [Hpos Hseed Hvl Hvp Hlp Hbl Hbf Hfo].
  destruct (queue s !! queuePosition s) as [e|] eqn:He;
    [|by rewrite (iteration_exit _ _ _ He)].
  pose proof (lookup_lt_Some _ _ _ He) as Hlt.
  destruct (decide (url e ∈ visitedUrls s)) as [Hv|Hv].
  { rewrite (iteration_visited _ _ _ _ He Hv).
    split; try done.
    - rewrite (popped_advance _ _ He), fmap_app, list_to_set_app_L. cbn.
      rewrite <- Hvp. set_solver.
    - rewrite (popped_advance _ _ He), fmap_app. by apply sublist_inserts_r.
    - intros x Hx. destruct (Hbf x Hx) as (i & Hi & Hq & Hfirst).
      exists i. cbn. split; [lia|done]. }
  destruct (iteration_fresh (startingUrl arg) fetch _ _ He Hv)
    as (new & broken & -> & Hnew).
  assert (take (S (queuePosition s)) (queue s ++ new) = popped s ++ [e]) as Htake.
  { rewrite take_app_le by lia. by apply take_S_r. }
  split; cbn.
  - rewrite length_app. lia.
  - rewrite lookup_app_l by lia. done.
  - rewrite list_to_set_app_L, <- Hvl. set_solver.
  - unfold popped. cbn. rewrite Htake, fmap_app, list_to_set_app_L, <- Hvp.
    set_solver.
  - unfold popped. cbn. rewrite Htake, fmap_app. by apply sublist_app.
  - destruct Hnew as [[_ ->]|(_ & _ & ->)].
    + rewrite app_nil_r. by apply sublist_inserts_r.
    + rewrite fmap_app. by apply sublist_app.
  - intros x Hx.
    assert (x ∈ brokenLinks s ∨ (x = e ∧ new = [])) as [Hold|[-> ->]].
    { destruct Hnew as [[_ ->]|(_ & -> & ->)].
      - rewrite app_nil_r in Hx. by left.
      - apply elem_of_app in Hx as [Hx|Hx%list_elem_of_singleton]; auto. }
    + destruct (Hbf x Hold) as (i & Hi & Hq & Hfirst).
      exists i. split; [lia|]. rewrite lookup_app_l by lia.
      split; [done|]. by rewrite take_app_le by lia.
    + exists (queuePosition s). rewrite app_nil_r. split; [lia|].
      split; [done|]. fold (popped s). intros Hin. apply Hv.
      rewrite Hvp. by apply elem_of_list_to_set.
  - intros i x Hi Hx.
    destruct (decide (i < length (queue s))) as [Hold|Hnew'].
    + rewrite lookup_app_l in Hx by done.
      destruct (Hfo i x Hi Hx) as (H1 & H2 & H3).
      split; [|done]. apply elem_of_app. by left.
    + rewrite lookup_app_r in Hx by lia.
      apply list_elem_of_lookup_2 in Hx.
      destruct Hnew as [[Htry _]|(_ & -> & _)]; [|by apply elem_of_nil in Hx].
      apply tryBlock_pushes in Htry
        as [->|(r & html & _ & _ & Hin & _ & ->)]; [by apply elem_of_nil in Hx|].
      apply list_elem_of_fmap in Hx as (h & -> & [Hh _]%list_elem_of_filter).
      cbn. split; [|split; [done|]].
      * apply elem_of_app. right. by left.
      * intros ->. apply Hh. set_solver.
Qed.

Lemma engineInv_turns {engine : JsEngine}
    (arg : string) (web : Transport) (n : nat) (s : State) :
  engineInv arg s → engineInv arg (turns (startingUrl arg) n web s).
Proof.
  revert s. induction n as [|n IH]; intros s Hs; [done|].
  cbn. apply IH. by apply engineInv_iteration.
Qed.

Lemma engineInv_run {engine : JsEngine}
    (arg : string) (web : Transport) (n : nat) :
  engineInv arg (turns (startingUrl arg) n web (initial arg)).
Proof. apply engineInv_turns, engineInv_initial. Qed.

(** The two ways into the [catch] handler. *)
Lemma tryBlock_isBroken {engine : JsEngine}
    (baseUrl : string) (visited : gset string)
      (u : string) (o : FetchOutcome) :
  tryBlock baseUrl visited u o = None
  ↔ isBroken baseUrl u o || pushOverflows baseUrl visited u o = true.
Proof.
  unfold tryBlock, isBroken, pushOverflows. destruct o as [|r]; [done|].
  destruct (status r =? 404)%Z; [done|].
  destruct (Js.startsWith u baseUrl); [|done].
  destruct (readHtml r) as [html|]; [|done].
  cbn. rewrite length_fmap.
  case_bool_decide; case_bool_decide; split; try done; lia.
Qed.

Lemma isBroken_throws {engine : JsEngine}
    (baseUrl : string) (visited : gset string)
      (u : string) (o : FetchOutcome) :
  isBroken baseUrl u o = true → tryBlock baseUrl visited u o = None.
Proof. intros H. apply tryBlock_isBroken. by rewrite H. Qed.

(** A page with no more links than one spread call takes does not overflow
    it. *)
Lemma pushOverflows_fits {engine : JsEngine}
    (baseUrl : string) (visited : gset string)
      (u : string) (o : FetchOutcome) :
  (∀ r html, o = Resolved r → readHtml r = Some html →
             length (getHrefs baseUrl html u) ≤ spreadLimit) →
  pushOverflows baseUrl visited u o = false.
Proof.
  intros Hfit. unfold pushOverflows. destruct o as [|r]; [done|].
  destruct (readHtml r) as [html|] eqn:Hread; [|by rewrite andb_false_r].
  rewrite bool_decide_eq_false_2; [by rewrite andb_false_r|].
  pose proof (Hfit r html eq_refl Hread) as Hlen.
  pose proof (length_filter (fun href => href ∉ visited)
                (getHrefs baseUrl html u)) as Hf.
  lia.
Qed.

(** X1.  In every state of every run the visited set is exactly the set of
    URLs fetched so far, and exactly the set of URLs of the entries popped so
    far; the fetches follow the order of the popped entries. *)
Theorem visited_are_fetched {engine : JsEngine}
    (arg : string) (web : Transport) (n : nat) :
  let s := turns (startingUrl arg) n web (initial arg) in
  visitedUrls s = list_to_set (fetchLog s)
  ∧ visitedUrls s = list_to_set (url <$> popped s)
  ∧ fetchLog s `sublist_of` (url <$> popped s).
Proof.
  destruct (engineInv_run arg web n) as [_ _ H1 H2 H3 _ _ _]. by cbv zeta.
Qed.

(** X2.  When a run ends, every entry of the frontier has been popped and
    every URL of the frontier has been fetched, once; the number of links
    reported as checked is the length of the frontier, which counts an URL
    as often as it was queued, and is never less than the number of
    fetches. *)
Theorem every_link_checked_once {engine : JsEngine}
    (arg : string) (web : Transport)
    (fuel : nat) (final : State) :
  main fuel web arg = Some final →
  queuePosition final = length (queue final)
  ∧ (∀ u, u ∈ fetchLog final ↔ ∃ e, e ∈ queue final ∧ url e = u)
  ∧ NoDup (fetchLog final)
  ∧ length (fetchLog final) ≤ queuePosition final.
Proof.
  intros [[n [_ ->]] Hend]%runLinkCheck_turns.
  destruct (engineInv_run arg web n) as [Hpos _ Hvl Hvp Hlp _ _ _].
  set (s := turns (startingUrl arg) n web (initial arg)) in *.
  assert (popped s = queue s) as Hall by (apply take_ge; lia).
  split; [lia|]. split; [|split].
  - intros u. rewrite <- (elem_of_list_to_set (C := gset string)), <- Hvl, Hvp, Hall.
    rewrite elem_of_list_to_set, list_elem_of_fmap. naive_solver.
  - apply (loggedOnce_turns (startingUrl arg) web n _ (loggedOnce_initial arg)).
  - apply sublist_length in Hlp. rewrite length_fmap in Hlp.
    unfold popped in Hlp. rewrite length_take in Hlp. lia.
Qed.

Lemma every_link_checked_once_witness :
  ∃ final, main (engine := Site.node) 10 Site.web "s.test" = Some final
    ∧ queuePosition final = length (queue final)
    ∧ (∀ u, u ∈ fetchLog final ↔ ∃ e, e ∈ queue final ∧ url e = u)
    ∧ NoDup (fetchLog final)
    ∧ length (fetchLog final) ≤ queuePosition final.
Proof.
  exists (turns (engine := Site.node) (startingUrl "s.test") 6 Site.web (initial "s.test")).
  assert (main (engine := Site.node) 10 Site.web "s.test"
          = Some (turns (engine := Site.node) (startingUrl "s.test") 6 Site.web (initial "s.test")))
    as Hrun by (vm_compute; reflexivity).
  split; [exact Hrun|].
  exact (every_link_checked_once "s.test" Site.web 10 _ Hrun).
Defined.

(** X3.  In every state of every run no URL is reported broken twice, the
    broken links are listed in the order of their fetches, and each record is
    the first entry of the frontier with its URL: a broken link is reported
    with the page on which it was first discovered. *)
Theorem broken_links_attribution {engine : JsEngine}
    (arg : string) (web : Transport) (n : nat) :
  let s := turns (startingUrl arg) n web (initial arg) in
  NoDup (url <$> brokenLinks s)
  ∧ (url <$> brokenLinks s) `sublist_of` fetchLog s
  ∧ ∀ e, e ∈ brokenLinks s →
      ∃ i, i < queuePosition s ∧ queue s !! i = Some e
           ∧ url e ∉ (url <$> take i (queue s)).
Proof.
  destruct (engineInv_run arg web n) as [_ _ _ _ _ Hbl Hbf _]. cbv zeta.
  split; [|done].
  eapply sublist_NoDup; [|exact Hbl].
  apply (loggedOnce_turns (startingUrl arg) web n _ (loggedOnce_initial arg)).
Qed.

(** X4.  The frontier starts with the seed entry, and every later entry was
    found on a page that has been fetched and is in-origin, and does not link
    that page to itself: nothing is ever queued from a page outside the
    starting URL. *)
Theorem links_found_on_scanned_pages {engine : JsEngine}
    (arg : string) (web : Transport)
    (n i : nat) (e : FrontierEntry) :
  let s := turns (startingUrl arg) n web (initial arg) in
  queue s !! i = Some e →
  (i = 0 ∧ e = seedEntry arg)
  ∨ (0 < i ∧ foundOn e ∈ fetchLog s
     ∧ Js.startsWith (foundOn e) (startingUrl arg) = true
     ∧ url e ≠ foundOn e).
Proof.
  destruct (engineInv_run arg web n) as [_ Hseed _ _ _ _ _ Hfo]. cbv zeta.
  intros He. destruct i as [|i].
  - left. split; [done|]. rewrite Hseed in He. by injection He.
  - right. split; [lia|]. apply (Hfo (S i)); [lia|done].
Qed.

Lemma links_found_on_scanned_pages_witness :
  let s := turns (engine := Site.node) (startingUrl "s.test") 2 Site.web (initial "s.test") in
  let e := {| url := "https://s.test/c"; foundOn := "https://s.test/a" |} in
  queue s !! 3 = Some e
  ∧ foundOn e ∈ fetchLog s
  ∧ Js.startsWith (foundOn e) (startingUrl "s.test") = true.
Proof.
  cbv zeta.
  assert (queue (turns (engine := Site.node) (startingUrl "s.test") 2 Site.web (initial "s.test")) !! 3
          = Some {| url := "https://s.test/c"; foundOn := "https://s.test/a" |})
    as He by (vm_compute; reflexivity).
  split; [exact He|].
  destruct (links_found_on_scanned_pages "s.test" Site.web 2 3 _ He)
    as [[Hi _]|(_ & H1 & H2 & _)]; [discriminate Hi|].
  by split.
Defined.

(** ** What a turn does and does not do *)

Section StaticSite.

Context {engine : JsEngine}.

Variable arg : string.

(** A site whose answers do not change during the run. *)
Variable site : string → FetchOutcome.

(** No page of the site holds more links than one spread call takes. *)
Hypothesis site_fits :
  ∀ (u : string) (r : Response) (html : string),
    site u = Resolved r → readHtml r = Some html →
    length (getHrefs (startingUrl arg) html u) ≤ spreadLimit.

Lemma brokenLinks_iteration (s : State) :
  url <$> brokenLinks s
    = filter (fun u => isBroken (startingUrl arg) u (site u) = true) (fetchLog s) →
  url <$> brokenLinks (iteration (startingUrl arg) site s)
    = filter (fun u => isBroken (startingUrl arg) u (site u) = true)
             (fetchLog (iteration (startingUrl arg) site s)).
Proof.
  intros Hs.
  destruct (queue s !! queuePosition s) as [e|] eqn:He;
    [|by rewrite (iteration_exit _ _ _ He)].
  destruct (decide (url e ∈ visitedUrls s)) as [Hv|Hv];
    [by rewrite (iteration_visited _ _ _ _ He Hv)|].
  destruct (iteration_fresh (startingUrl arg) site _ _ He Hv)
    as (new & broken & -> & [[Htry ->]|(Htry & _ & ->)]); cbn;
    rewrite filter_app, <- Hs.
  - rewrite app_nil_r, filter_cons_False, filter_nil, app_nil_r; [done|].
    intros Hb. apply (isBroken_throws _ ({[url e]} ∪ visitedUrls s)) in Hb.
    by rewrite Hb in Htry.
  - rewrite fmap_app, filter_cons_True; [done|].
    apply tryBlock_isBroken in Htry.
    rewrite pushOverflows_fits, orb_false_r in Htry; [done|].
    intros r html. apply site_fits.
Qed.

Lemma brokenLinks_turns (n : nat) (s : State) :
  url <$> brokenLinks s
    = filter (fun u => isBroken (startingUrl arg) u (site u) = true) (fetchLog s) →
  let s' := turns (startingUrl arg) n (fun _ => site) s in
  url <$> brokenLinks s'
    = filter (fun u => isBroken (startingUrl arg) u (site u) = true) (fetchLog s').
Proof.
  revert s. induction n as [|n IH]; intros s Hs; [done|].
  cbn. apply IH. by apply brokenLinks_iteration.
Qed.

End StaticSite.

(** X5.  On a site whose answers do not change during the run and whose
    pages hold no more links than one spread call takes, the broken links
    are, in every state of the run, exactly the fetched URLs whose fetch was
    rejected, answered 404, or (for an in-origin URL) made the header test or
    the body read throw, in the order of the fetches. *)
Theorem report_lists_failures {engine : JsEngine}
    (arg : string) (site : string → FetchOutcome)
    (n : nat) :
  (∀ (u : string) (r : Response) (html : string),
     site u = Resolved r → readHtml r = Some html →
     length (getHrefs (startingUrl arg) html u) ≤ spreadLimit) →
  let s := turns (startingUrl arg) n (fun _ => site) (initial arg) in
  url <$> brokenLinks s
  = filter (fun u => isBroken (startingUrl arg) u (site u) = true) (fetchLog s).
Proof. intros Hfit. by apply brokenLinks_turns. Qed.

Lemma site_fits_node (u : string) (r : Response) (html : string) :
  Site.web 0 u = Resolved r → readHtml r = Some html →
  length (getHrefs (startingUrl "s.test") html u)
  ≤ spreadLimit (JsEngine := Site.node).
Proof.
  unfold Site.web. repeat case_bool_decide; subst; intros [= <-];
    try discriminate; intros [= <-]; apply Nat.leb_le; by vm_compute.
Qed.

Lemma report_lists_failures_witness :
  let s := turns (engine := Site.node) (startingUrl "s.test") 6
                 (fun _ => Site.web 0) (initial "s.test") in
  url <$> brokenLinks s = ["https://s.test/c"]
  ∧ url <$> brokenLinks s
    = filter (fun u => isBroken (startingUrl "s.test") u (Site.web 0 u) = true)
             (fetchLog s).
Proof.
  cbv zeta. split; [vm_compute; reflexivity|].
  exact (report_lists_failures (engine := Site.node) "s.test" (Site.web 0) 6
           site_fits_node).
Defined.

(** X6.  A page that is out of origin, or whose content-type does not
    mention [text/html], is fetched but never scanned: when its status is not
    404 the turn queues nothing and reports nothing, whatever the body is and
    even when reading the body would fail. *)
Theorem unscanned_pages {engine : JsEngine}
    (baseUrl : string) (fetch : string → FetchOutcome)
    (s : State) (e : FrontierEntry) (r : Response) :
  queue s !! queuePosition s = Some e → url e ∉ visitedUrls s →
  fetch (url e) = Resolved r → status r ≠ 404%Z →
  Js.startsWith (url e) baseUrl = false
  ∨ (∃ ct, contentType r = Some ct ∧ Js.includes ct "text/html" = false) →
  queue (iteration baseUrl fetch s) = queue s
  ∧ brokenLinks (iteration baseUrl fetch s) = brokenLinks s
  ∧ fetchLog (iteration baseUrl fetch s) = fetchLog s ++ [url e].
Proof.
  intros He Hv Hf Hst Hcase.
  assert (tryBlock baseUrl ({[url e]} ∪ visitedUrls s) (url e) (fetch (url e))
          = Some []) as Htry.
  { rewrite Hf. unfold tryBlock, readHtml.
    destruct (Z.eqb_spec (status r) 404); [done|].
    destruct Hcase as [->|(ct & -> & Hct)]; [done|].
    destruct (Js.startsWith (url e) baseUrl); [|done]. cbn. rewrite Hct.
    cbn. rewrite bool_decide_eq_true_2; [done|lia]. }
  destruct (iteration_fresh baseUrl fetch _ _ He Hv)
    as (new & broken & -> & [[Hnew ->]|(Hnew & _ & _)]); cbn;
    rewrite Htry in Hnew; [|done].
  injection Hnew as <-. by rewrite !app_nil_r.
Qed.

Lemma unscanned_pages_witness :
  let pdf := {| status := 200; contentType := Some "application/pdf";
                text := None |} in
  let s := initial "s.test" in
  queue (iteration (engine := Site.node) "https://s.test" (fun _ => Resolved pdf) s) = queue s
  ∧ brokenLinks (iteration (engine := Site.node) "https://s.test" (fun _ => Resolved pdf) s) = []
  ∧ fetchLog (iteration (engine := Site.node) "https://s.test" (fun _ => Resolved pdf) s)
    = ["https://s.test"].
Proof.
  cbv zeta.
  apply (unscanned_pages "https://s.test" _ (initial "s.test") (seedEntry "s.test")
           {| status := 200; contentType := Some "application/pdf"; text := None |}).
  - reflexivity.
  - cbn. set_solver.
  - reflexivity.
  - cbn. discriminate.
  - right. exists "application/pdf". split; reflexivity.
Defined.

(** X7.  When the fetch of the starting URL fails (it is rejected, answers
    404, or its header test or body read throws), the run ends after one
    turn: one link checked, one broken link, the starting URL found on
    [base URL]. *)
Theorem failed_seed {engine : JsEngine}
    (arg : string) (web : Transport) (fuel : nat) :
  isBroken (startingUrl arg) (startingUrl arg) (web 0 (startingUrl arg)) = true →
  main (S fuel) web arg
  = Some {| queue := [seedEntry arg]; queuePosition := 1;
            visitedUrls := {[startingUrl arg]} ∪ ∅;
            brokenLinks := [{| url := startingUrl arg; foundOn := "base URL" |}];
            fetchLog := [startingUrl arg] |}.
Proof.
  intros Hb. unfold main. cbn [runLinkCheck].
  rewrite bool_decide_eq_true_2 by (cbn; lia).
  assert (turn (startingUrl arg) web (initial arg)
          = {| queue := [seedEntry arg]; queuePosition := 1;
               visitedUrls := {[startingUrl arg]} ∪ ∅;
               brokenLinks := [seedEntry arg];
               fetchLog := [startingUrl arg] |}) as ->.
  { unfold turn.
    destruct (iteration_fresh (startingUrl arg) (web (length (fetchLog (initial arg))))
                (initial arg) (seedEntry arg) eq_refl)
      as (new & broken & -> & [[Htry _]|(_ & -> & ->)]); [cbn; set_solver|..|done].
    apply (isBroken_throws _ ({[startingUrl arg]} ∪ ∅)) in Hb.
    cbn in Htry. by rewrite Hb in Htry. }
  destruct fuel; cbn; by rewrite bool_decide_eq_false_2 by (cbn; lia).
Qed.

Lemma failed_seed_witness :
  main (engine := Site.node) 5 (fun _ _ => Rejected) "s.test"
  = Some {| queue := [seedEntry "s.test"]; queuePosition := 1;
            visitedUrls := {["https://s.test"]} ∪ ∅;
            brokenLinks := [{| url := "https://s.test"; foundOn := "base URL" |}];
            fetchLog := ["https://s.test"] |}.
Proof. apply (failed_seed "s.test" (fun _ _ => Rejected) 4). reflexivity. Defined.

Section AppendOnly.

Context {engine : JsEngine}.

Variable baseUrl : string.

Lemma iteration_grows (fetch : string → FetchOutcome) (s : State) :
  let s' := iteration baseUrl fetch s in
  queue s `prefix_of` queue s'
  ∧ brokenLinks s `prefix_of` brokenLinks s'
  ∧ fetchLog s `prefix_of` fetchLog s'
  ∧ visitedUrls s ⊆ visitedUrls s'
  ∧ queuePosition s ≤ queuePosition s'.
Proof.
  cbv zeta.
  destruct (queue s !! queuePosition s) as [e|] eqn:He;
    [|by rewrite (iteration_exit _ _ _ He)].
  destruct (decide (url e ∈ visitedUrls s)) as [Hv|Hv].
  { rewrite (iteration_visited _ _ _ _ He Hv). cbn. repeat split; auto; lia. }
  destruct (iteration_fresh baseUrl fetch _ _ He Hv)
    as (new & broken & -> & _); cbn.
  repeat split; try apply prefix_app_r; try done; [set_solver|lia].
Qed.

End AppendOnly.

(** X8.  The engine only ever appends: from any state and after any number
    of turns against any transport, the earlier frontier, broken-link list
    and fetch log are prefixes of the later ones, the visited set has only
    grown and the position has not moved back.  No entry or record is ever
    removed or changed. *)
Theorem engine_only_appends {engine : JsEngine}
    (baseUrl : string) (web : Transport) (n : nat)
    (s : State) :
  let s' := turns baseUrl n web s in
  queue s `prefix_of` queue s'
  ∧ brokenLinks s `prefix_of` brokenLinks s'
  ∧ fetchLog s `prefix_of` fetchLog s'
  ∧ visitedUrls s ⊆ visitedUrls s'
  ∧ queuePosition s ≤ queuePosition s'.
Proof.
  cbv zeta. revert s. induction n as [|n IH]; intros s; [done|].
  cbn [turns].
  destruct (iteration_grows baseUrl (web (length (fetchLog s))) s)
    as (H1 & H2 & H3 & H4 & H5).
  destruct (IH (turn baseUrl web s)) as (I1 & I2 & I3 & I4 & I5).
  unfold turn in *. repeat split; try (by etrans); lia.
Qed.



(** ** The extractor *)

Section ExtractorFacts.

Lemma length_append (a b : string) :
  String.length (a +:+ b) = String.length a + String.length b.
Proof. induction a as [|c a IH]; [done|]. rewrite app_cons. cbn. by rewrite IH. Qed.

Lemma substring_take (x b : string) :
  String.substring 0 (String.length x) (x +:+ b) = x.
Proof.
  induction x as [|c x IH]; [by destruct b|]. rewrite app_cons. cbn.
  by rewrite IH.
Qed.

Lemma substring_skip (a b : string) (n m : nat) :
  String.substring (String.length a + n) m (a +:+ b) = String.substring n m b.
Proof. induction a as [|c a IH]; [done|]. by rewrite app_cons. Qed.

Lemma hrefOpen_unfold :
  hrefOpen = String "h" (String "r" (String "e" (String "f" (String "="
               (String dquote EmptyString))))).
Proof. reflexivity. Qed.

(** The slice takes the six opening characters and the closing quote off. *)
Lemma slice_match (x : string) :
  Js.slice (hrefOpen +:+ x +:+ String dquote EmptyString) 6 (-1) = x.
Proof.
  unfold Js.slice. rewrite !length_append.
  change (String.length hrefOpen) with 6.
  change (String.length (String dquote EmptyString)) with 1.
  change (6 <? 0)%Z with false. change (-1 <? 0)%Z with true. cbv iota.
  replace (Z.to_nat (Z.min 6 (Z.of_nat (6 + (String.length x + 1)))))
    with (String.length hrefOpen + 0) by (change (String.length hrefOpen) with 6; lia).
  replace (Z.to_nat _) with (String.length x) by lia.
  rewrite substring_skip. apply substring_take.
Qed.

Lemma closeQuote_inv (s : string) (k : nat) :
  closeQuote s = Some k →
  ∃ body rest, s = body +:+ String dquote rest
               ∧ k = S (String.length body) ∧ allChars plainChar body = true.
Proof.
  revert k. induction s as [|c s IH]; intros k; [done|]. cbn.
  destruct (Ascii.eqb_spec c dquote) as [->|Hq].
  { intros [= <-]. by exists EmptyString, s. }
  destruct (isLineTerminator c) eqn:Hlt; [done|].
  intros (k' & Hk & ->)%fmap_Some.
  destruct (IH _ Hk) as (body & rest & -> & -> & Hbody).
  exists (String c body), rest. rewrite app_cons. split; [done|]. split; [done|].
  cbn. unfold plainChar at 1. rewrite Hlt.
  by destruct (Ascii.eqb_spec c dquote).
Qed.

Lemma closeQuote_app (body rest : string) :
  allChars plainChar body = true →
  closeQuote (body +:+ String dquote rest) = Some (S (String.length body)).
Proof.
  induction body as [|c body IH]; [done|]. rewrite app_cons. cbn.
  intros [[Hq Hlt]%andb_prop Hbody]%andb_prop.
  apply negb_true_iff in Hq, Hlt. rewrite Hq, Hlt, (IH Hbody). done.
Qed.

(** A match is the opening, one character that is no line terminator, plain
    characters, and the first quote after them. *)
Lemma matchHere_inv (s : string) (n : nat) :
  matchHere s = Some n →
  ∃ c body rest,
    s = (hrefOpen +:+ String c body +:+ String dquote EmptyString) +:+ rest
    ∧ isLineTerminator c = false ∧ allChars plainChar body = true
    ∧ n = String.length (hrefOpen +:+ String c body +:+ String dquote EmptyString).
Proof.
  unfold matchHere. destruct (Js.startsWith s hrefOpen) eqn:Hopen; [|done].
  apply startsWith_inv in Hopen as [r0 ->].
  change 6 with (String.length hrefOpen) at 1. rewrite dropChars_app.
  destruct r0 as [|c r]; [done|].
  destruct (isLineTerminator c) eqn:Hlt; [done|].
  intros (k & (body & rest & -> & -> & Hbody)%closeQuote_inv & ->)%fmap_Some.
  exists c, body, rest. split; [|split; [done|split; [done|]]].
  - by rewrite !append_assoc, !app_cons, app_empty.
  - rewrite !length_append. cbn. change (String.length hrefOpen) with 6. lia.
Qed.

Lemma matchHere_app (c : ascii) (body rest : string) :
  isLineTerminator c = false → allChars plainChar body = true →
  matchHere ((hrefOpen +:+ String c body +:+ String dquote EmptyString) +:+ rest)
  = Some (String.length (hrefOpen +:+ String c body +:+ String dquote EmptyString)).
Proof.
  intros Hlt Hbody. unfold matchHere.
  rewrite !append_assoc, startsWith_app.
  change 6 with (String.length hrefOpen) at 1. rewrite dropChars_app.
  rewrite app_cons, Hlt, app_cons, app_empty, (closeQuote_app _ _ Hbody).
  cbn. f_equal. rewrite !length_append. cbn.
  change (String.length hrefOpen) with 6. lia.
Qed.

Lemma matchAll_skip (x rest : string) :
  matchAll (x +:+ rest) (String.length x) = matchAll rest 0.
Proof. induction x as [|c x IH]; [done|]. by rewrite app_cons. Qed.

(** A match at the head is taken, and the scan goes on after it. *)
Lemma matchAll_match (m rest : string) :
  matchHere (m +:+ rest) = Some (String.length m) → m ≠ EmptyString →
  matchAll (m +:+ rest) 0 = m :: matchAll rest 0.
Proof.
  destruct m as [|c m]; [done|]. intros Hm _.
  rewrite app_cons in *. cbn [matchAll]. rewrite Hm.
  rewrite <- app_cons, substring_take. cbn [String.length].
  by rewrite Nat.sub_1_r, Nat.pred_succ, matchAll_skip.
Qed.

(** No match starts at a character other than the letter h. *)
Lemma matchAll_pre (pre rest : string) :
  allChars (fun c => negb (Ascii.eqb c "h")) pre = true →
  matchAll (pre +:+ rest) 0 = matchAll rest 0.
Proof.
  induction pre as [|c pre IH]; [done|]. rewrite app_cons. cbn [allChars].
  intros [Hc Hpre]%andb_prop. apply negb_true_iff in Hc.
  cbn [matchAll]. unfold matchHere at 1. rewrite hrefOpen_unfold. cbn.
  rewrite Hc. by apply IH.
Qed.

Lemma rawHrefs_matchAll (text : string) :
  rawHrefs text = (fun m => Js.slice m 6 (-1)) <$> matchAll text 0.
Proof. unfold rawHrefs, matchHref. by destruct (matchAll text 0). Qed.

Lemma matchAll_elem (s : string) (skip : nat) (m : string) :
  m ∈ matchAll s skip →
  ∃ c body, m = hrefOpen +:+ String c body +:+ String dquote EmptyString
            ∧ isLineTerminator c = false ∧ allChars plainChar body = true.
Proof.
  revert skip. induction s as [|c0 s IH]; intros skip; cbn [matchAll];
    [by intros ?%elem_of_nil|].
  destruct skip as [|k]; [|apply IH].
  destruct (matchHere (String c0 s)) as [n|] eqn:Hm; [|apply IH].
  intros [->|Hin]%elem_of_cons; [|by apply IH in Hin].
  apply matchHere_inv in Hm as (c & body & rest & -> & Hlt & Hbody & ->).
  exists c, body. by rewrite substring_take.
Qed.

(** Each match takes at least eight characters of the text. *)
Lemma matchAll_length (s : string) (skip : nat) :
  8 * length (matchAll s skip) + skip `min` String.length s ≤ String.length s.
Proof.
  revert skip. induction s as [|c0 s IH]; intros skip; cbn [matchAll];
    [cbn; lia|].
  destruct skip as [|k].
  - destruct (matchHere (String c0 s)) as [n|] eqn:Hm.
    + pose proof Hm as (c & body & rest & Hs & _ & _ & Hn)%matchHere_inv.
      pose proof (f_equal String.length Hs) as Hlen.
      rewrite length_append, <- Hn in Hlen.
      rewrite !length_append in Hn. change (String.length hrefOpen) with 6 in Hn.
      cbn [String.length] in Hn, Hlen. cbn [length String.length].
      specialize (IH (n - 1)). lia.
    + specialize (IH 0). cbn. lia.
  - specialize (IH k). cbn. lia.
Qed.

End ExtractorFacts.

(** X10.  Every href the extractor finds on a page is not empty, holds no
    line terminator, and holds no double quote except possibly as its first
    character. *)
Theorem raw_hrefs_shape (text h : string) :
  h ∈ rawHrefs text →
  ∃ c body, h = String c body
            ∧ isLineTerminator c = false ∧ allChars plainChar body = true.
Proof.
  rewrite rawHrefs_matchAll.
  intros (m & -> & (c & body & -> & Hlt & Hbody)%matchAll_elem)%list_elem_of_fmap.
  exists c, body. by rewrite slice_match.
Qed.

Lemma raw_hrefs_shape_witness :
  ∃ c body, "/a?x=1" = String c body
            ∧ isLineTerminator c = false ∧ allChars plainChar body = true.
Proof.
  apply (raw_hrefs_shape (Site.anchor "/a?x=1" +:+ Site.anchor "b.html")).
  apply (bool_decide_unpack _). by vm_compute.
Defined.

(** X11.  The extraction follows the text from left to right: text without
    the letter h before an anchor yields nothing, and a well-formed
    [href] attribute at the head of the text yields its quoted content,
    followed by what the rest of the text yields. *)
Theorem extraction_composes :
  (∀ pre rest,
     allChars (fun c => negb (Ascii.eqb c "h")) pre = true →
     rawHrefs (pre +:+ rest) = rawHrefs rest)
  ∧ (∀ c body rest,
       isLineTerminator c = false → allChars plainChar body = true →
       rawHrefs (hrefOpen +:+ String c body +:+ String dquote rest)
       = String c body :: rawHrefs rest).
Proof.
  split.
  - intros pre rest Hpre. by rewrite !rawHrefs_matchAll, matchAll_pre.
  - intros c body rest Hlt Hbody. rewrite !rawHrefs_matchAll.
    replace (hrefOpen +:+ String c body +:+ String dquote rest)
      with ((hrefOpen +:+ String c body +:+ String dquote EmptyString) +:+ rest)
      by (by rewrite !append_assoc, !app_cons, app_empty).
    rewrite matchAll_match.
    + cbn [fmap list_fmap]. by rewrite slice_match.
    + by apply matchHere_app.
    + by rewrite hrefOpen_unfold.
Qed.

Lemma getHrefs_length (b text cur : string) :
  length (getHrefs b text cur) ≤ length (rawHrefs text).
Proof.
  rewrite getHrefs_raw. induction (rawHrefs text) as [|h l IH]; [done|].
  cbn. destruct (normalize h cur b); cbn; lia.
Qed.

Lemma keepTruthy_some (v : option string) (h : string) :
  keepTruthy v = Some h → h ≠ EmptyString.
Proof. unfold keepTruthy. destruct v as [[|c x]|]; try done. by intros [= <-]. Qed.

(** X12.  Whatever the page, the base URL and the current URL: [getHrefs]
    returns at most one URL per eight characters of the page, and every URL
    it returns is non-empty and holds no question mark. *)
Theorem hrefs_bounded_and_clean (b text cur : string) :
  8 * length (getHrefs b text cur) ≤ String.length text
  ∧ ∀ h, h ∈ getHrefs b text cur →
      h ≠ EmptyString ∧ Js.includes h "?" = false.
Proof.
  split.
  - pose proof (getHrefs_length b text cur) as Hle.
    rewrite rawHrefs_matchAll, length_fmap in Hle.
    pose proof (matchAll_length text 0). lia.
  - intros h. rewrite getHrefs_raw.
    intros (raw & _ & Hn)%list_elem_of_omap. split.
    + by apply keepTruthy_some in Hn.
    + apply normalize_some in Hn as (y & -> & _). apply stripQuery_clean.
Qed.

(** ** The two copies of [getHrefs] *)

Lemma omap_sublist {A B : Type} (f g : A → option B) (l : list A) :
  (∀ x y, f x = Some y → g x = Some y) → omap f l `sublist_of` omap g l.
Proof.
  intros Hfg. induction l as [|x l IH]; [done|]. cbn.
  destruct (f x) as [y|] eqn:Hf.
  - rewrite (Hfg _ _ Hf). by apply sublist_skip.
  - destruct (g x); [by apply sublist_cons | done].
Qed.

Lemma resolve_earlier (b cur h : string) :
  h ≠ "true" → h ≠ "false" → Earlier.resolve b cur h = resolve b cur h.
Proof.
  intros Ht Hf. unfold Earlier.resolve, resolve.
  by rewrite (bool_decide_eq_false_2 _ Ht), (bool_decide_eq_false_2 _ Hf).
Qed.

Lemma resolve_literal (b cur h : string) :
  h = "true" ∨ h = "false" → resolve b cur h = None.
Proof. by intros [-> | ->]. Qed.

(** X13.  The two copies of [getHrefs] differ only on the literal hrefs true
    and false: on every page the newer copy returns a sublist of what the
    earlier copy returns, and on a page with no such href they return the
    same list. *)
Theorem copies_of_getHrefs (b text cur : string) :
  getHrefs b text cur `sublist_of` Earlier.getHrefs b text cur
  ∧ ((∀ h, h ∈ rawHrefs text → h ≠ "true" ∧ h ≠ "false") →
     Earlier.getHrefs b text cur = getHrefs b text cur).
Proof.
  unfold getHrefs, Earlier.getHrefs, rawHrefs, mapCallback, Earlier.mapCallback.
  split.
  - apply omap_sublist. intros m y.
    destruct (decide (Js.slice m 6 (-1) = "true")) as [Ht|Ht];
      [by rewrite resolve_literal by auto|].
    destruct (decide (Js.slice m 6 (-1) = "false")) as [Hf|Hf];
      [by rewrite resolve_literal by auto|].
    by rewrite resolve_earlier.
  - intros Hno. induction (default [] (matchHref text)) as [|m ms IH]; [done|].
    cbn in *. destruct (Hno (Js.slice m 6 (-1))) as [Ht Hf]; [by left|].
    rewrite resolve_earlier by done. rewrite IH; [done|].
    intros h Hh. apply Hno. by right.
Qed.

(** ** Origins *)

Section OriginFacts.

Lemma includes_app_l (b r sub : string) :
  Js.includes b sub = true → Js.includes (b +:+ r) sub = true.
Proof.
  induction b as [|c b IH].
  - destruct sub; [by destruct r | done].
  - rewrite app_cons. cbn [Js.includes].
    intros [H|H]%orb_prop; apply orb_true_iff.
    + left. rewrite <- app_cons. by apply startsWith_app_l.
    + right. by apply IH.
Qed.

(** A URL under a base that holds a question mark holds one too. *)
Lemma includes_prefix (u b sub : string) :
  Js.startsWith u b = true → Js.includes b sub = true →
  Js.includes u sub = true.
Proof. intros [r ->]%startsWith_inv. apply includes_app_l. Qed.

Lemma https_not_http (x b : string) :
  Js.startsWith b "https://" = true → Js.startsWith x "http://" = true →
  Js.startsWith x b = false.
Proof.
  intros [rb ->]%startsWith_inv [rx ->]%startsWith_inv.
  destruct (Js.startsWith _ _) eqn:H; [|done].
  apply startsWith_inv in H as [r H]. rewrite append_assoc in H. done.
Qed.

End OriginFacts.

(** X14.  An href that does not start with [http] stays in-origin: when the
    base URL holds no question mark and the current page is in-origin, what
    [normalize] keeps of the href starts with the base URL. *)
Theorem relative_links_stay_in_origin (h p b x : string) :
  Js.includes b "?" = false → Js.startsWith p b = true →
  Js.startsWith h "http" = false →
  normalize h p b = Some x → Js.startsWith x b = true.
Proof.
  intros Hb Hp Hh (y & -> & Hy)%normalize_some.
  apply stripQuery_startsWith; [done|].
  destruct Hy as [->|[[_ Hhttp]| ->]].
  - apply startsWith_app.
  - by rewrite Hh in Hhttp.
  - by apply startsWith_app_l.
Qed.

Lemma relative_links_stay_in_origin_witness :
  normalize "b.html?y" "https://s.test/dir/" "https://s.test"
    = Some "https://s.test/dir/b.html"
  ∧ Js.startsWith "https://s.test/dir/b.html" "https://s.test" = true.
Proof.
  split; [reflexivity|].
  apply (relative_links_stay_in_origin "b.html?y" "https://s.test/dir/"
           "https://s.test"); reflexivity.
Defined.

(** X15.  A starting URL with a query string is crawled one level deep: in
    every state of such a run every entry after the seed was found on the
    starting URL itself, since no stripped URL is in-origin. *)
Theorem query_seed_one_level {engine : JsEngine}
    (arg : string) (web : Transport) (n i : nat)
    (e : FrontierEntry) :
  let s := turns (startingUrl arg) n web (initial arg) in
  Js.includes (startingUrl arg) "?" = true →
  0 < i → queue s !! i = Some e → foundOn e = startingUrl arg.
Proof.
  cbv zeta. intros Hq Hi He.
  destruct (engineInv_run arg web n) as [_ _ _ _ Hlp _ _ Hfo].
  destruct (Hfo i e Hi He) as (Hlog & Hin & _).
  destruct (seedThenStripped_turns arg web n _ (seedThenStripped_initial arg))
    as (_ & rest & Hqueue & Hrest).
  assert (foundOn e ∈ url <$> queue (turns (startingUrl arg) n web (initial arg)))
    as (e' & Hurl & He')%list_elem_of_fmap.
  { eapply elem_of_submseteq; [exact Hlog|]. apply sublist_submseteq.
    etrans; [exact Hlp|]. apply fmap_sublist, sublist_take. }
  rewrite Hqueue in He'. apply elem_of_cons in He' as [->|He']; [done|].
  rewrite Forall_forall in Hrest. destruct (Hrest _ He') as [_ Hclean].
  rewrite <- Hurl, (includes_prefix _ _ _ Hin Hq) in Hclean. done.
Qed.

Lemma query_seed_one_level_witness :
  let s := turns (engine := Site.node) (startingUrl "s.test?lang=en") 3
                 (fun _ _ => Site.html (Site.anchor "/a" +:+ Site.anchor "b"))
                 (initial "s.test?lang=en") in
  ∃ e, queue s !! 2 = Some e ∧ foundOn e = "https://s.test?lang=en".
Proof.
  cbv zeta.
  assert (∃ e, queue (turns (engine := Site.node) (startingUrl "s.test?lang=en") 3
                        (fun _ _ => Site.html (Site.anchor "/a" +:+ Site.anchor "b"))
                        (initial "s.test?lang=en")) !! 2 = Some e) as [e He]
    by (eexists; vm_compute; reflexivity).
  exists e. split; [exact He|].
  exact (query_seed_one_level "s.test?lang=en" _ 3 2 e eq_refl
           (Nat.lt_0_succ 1) He).
Defined.

Lemma resolve_http (b p h : string) :
  Js.startsWith h "http" = true →
  keepTruthy (resolve b p h) = Some (stripQuery h).
Proof.
  intros Hh. destruct h as [|c h']; [done|].
  assert (c = "h"%char) as ->
    by (cbn in Hh; by destruct (Ascii.eqb_spec c "h")).
  unfold resolve.
  assert (Js.startsWith (String "h" h') "/" = false) as -> by done.
  assert (Js.startsWith (String "h" h') "#" = false) as -> by done.
  assert (Js.startsWith (String "h" h') "mailto:" = false) as -> by done.
  assert (Js.startsWith (String "h" h') "tel:" = false) as -> by done.
  rewrite !bool_decide_eq_false_2 by discriminate.
  cbn [orb]. rewrite Hh, keepTruthy_split. by apply kept_http.
Qed.

(** X16.  A link written with [http://] keeps that scheme (only the
    starting URL is upgraded), and under a base URL that starts with
    [https://] it is out of origin: such a page is checked but never
    scanned. *)
Theorem plain_http_links_are_external (h p b : string) :
  Js.startsWith b "https://" = true → Js.startsWith h "http://" = true →
  ∃ x, normalize h p b = Some x
       ∧ Js.startsWith x "http://" = true ∧ Js.startsWith x b = false.
Proof.
  intros Hb Hh. exists (stripQuery h).
  assert (Js.startsWith (stripQuery h) "http://" = true) as Hx
    by (by apply stripQuery_startsWith).
  split; [|split; [done|by apply https_not_http]].
  apply resolve_http. by apply (startsWith_trans _ "http://").
Qed.

Lemma plain_http_links_are_external_witness :
  ∃ x, normalize "http://s.test/about?ref=nav" "https://s.test/" "https://s.test"
       = Some x
       ∧ Js.startsWith x "http://" = true
       ∧ Js.startsWith x "https://s.test" = false.
Proof.
  apply (plain_http_links_are_external "http://s.test/about?ref=nav"
           "https://s.test/" "https://s.test"); reflexivity.
Defined.

Section SchemeFacts.

(** The replacement leaves the first three characters as they are, or puts
    the letter h among them. *)
Lemma replace_keeps_colon (r : string) :
  Js.startsWith r "://" = false →
  Js.startsWith (Js.replace r "http://" "https://") "://" = false.
Proof.
  intros Hr. rewrite replace_unfold.
  destruct (Js.startsWith r "http://"); [done|].
  destruct r as [|c1 r]; [done|]. cbn in Hr |- *.
  destruct (Ascii.eqb c1 ":"); [|done].
  rewrite replace_unfold.
  destruct (Js.startsWith r "http://"); [done|].
  destruct r as [|c2 r]; [done|]. cbn in Hr |- *.
  destruct (Ascii.eqb c2 "/"); [|done].
  rewrite replace_unfold.
  destruct (Js.startsWith r "http://"); [done|].
  destruct r as [|c3 r]; [done|]. cbn in Hr |- *.
  by destruct (Ascii.eqb c3 "/").
Qed.

End SchemeFacts.

(** X17.  Whatever the input, the starting URL (and so the base URL and the
    URL of the seed entry) never starts with [http://]. *)
Theorem startingUrl_never_plain_http (arg : string) :
  Js.startsWith (startingUrl arg) "http://" = false.
Proof.
  unfold startingUrl. destruct (Js.startsWith arg "http") eqn:Harg; [|done].
  apply startsWith_inv in Harg as [r ->].
  rewrite replace_unfold.
  destruct (Js.startsWith ("http" +:+ r) "http://") eqn:Hhead; [done|].
  change ("http" +:+ r) with (String "h" (String "t" (String "t" (String "p" r))))
    in *.
  cbn in Hhead. cbn.
  exact (replace_keeps_colon r Hhead).
Qed.

(** ** The report *)

Section ReportFacts.

Lemma append_empty_r (a : string) : a +:+ EmptyString = a.
Proof. induction a as [|c a IH]; [done|]. by rewrite app_cons, IH. Qed.

Lemma includes_startsWith (s sub : string) :
  Js.startsWith s sub = true → Js.includes s sub = true.
Proof. intros H. destruct s; cbn [Js.includes]; by rewrite H. Qed.

Lemma includes_app_r (a r sub : string) :
  Js.includes r sub = true → Js.includes (a +:+ r) sub = true.
Proof.
  intros H. induction a as [|c a IH]; [done|].
  rewrite app_cons. cbn [Js.includes]. rewrite IH. apply orb_true_r.
Qed.

(** The loop adds the entries to what [output] already holds. *)
Lemma fold_report (l : list FrontierEntry) (output : string) :
  fold_left (fun output brokenLink => output +:+ reportEntry brokenLink) l output
  = output +:+ reportEntries l.
Proof.
  revert output. induction l as [|e l IH]; intros output; cbn.
  - by rewrite append_empty_r.
  - by rewrite IH, append_assoc.
Qed.

Lemma reportEntries_app (l1 l2 : list FrontierEntry) :
  reportEntries (l1 ++ l2) = reportEntries l1 +:+ reportEntries l2.
Proof.
  unfold reportEntries. induction l1 as [|e l1 IH]; [done|].
  cbn. by rewrite IH, append_assoc.
Qed.

End ReportFacts.

(** X18.  The report is the header line followed by one entry per broken
    link, in the order of the list, and the entry of every broken link, with
    its URL and the page it was found on, stands in the report. *)
Theorem report_lists_broken_links (l : list FrontierEntry) :
  reportText l = reportHeader +:+ reportEntries l
  ∧ (∀ l1 e l2, l = l1 ++ e :: l2 →
       reportText l = reportText l1 +:+ reportEntry e +:+ reportEntries l2)
  ∧ (∀ e, e ∈ l → Js.includes (reportText l) (reportEntry e) = true).
Proof.
  assert (∀ l1 e l2,
            reportText (l1 ++ e :: l2)
            = reportText l1 +:+ reportEntry e +:+ reportEntries l2) as Hsplit.
  { intros l1 e l2. unfold reportText.
    rewrite !fold_report. by rewrite reportEntries_app, append_assoc. }
  split; [apply fold_report|]. split.
  - intros l1 e l2 ->. apply Hsplit.
  - intros e (l1 & l2 & ->)%list_elem_of_split. rewrite Hsplit.
    apply includes_app_r, includes_startsWith, startsWith_app.
Qed.

(** X20.  A processed entry is recorded as broken exactly when its fetch is
    rejected, answers 404, (for an in-origin URL) makes the header test or
    the body read throw, or (for a page that is scanned) yields more
    unvisited links than one spread call takes; in every other case, whatever
    the status, the turn records nothing. *)
Theorem broken_exactly_when {engine : JsEngine}
    (baseUrl : string) (fetch : string → FetchOutcome)
    (s : State) (e : FrontierEntry) :
  queue s !! queuePosition s = Some e → url e ∉ visitedUrls s →
  brokenLinks (iteration baseUrl fetch s)
  = if isBroken baseUrl (url e) (fetch (url e))
       || pushOverflows baseUrl ({[url e]} ∪ visitedUrls s) (url e)
                        (fetch (url e))
    then brokenLinks s ++ [e] else brokenLinks s.
Proof.
  intros He Hv.
  destruct (iteration_fresh baseUrl fetch _ _ He Hv)
    as (new & broken & -> & [[Htry ->]|(Htry & _ & ->)]); cbn.
  - destruct (isBroken _ _ _ || pushOverflows _ _ _ _) eqn:Hb;
      [|by rewrite app_nil_r].
    apply tryBlock_isBroken in Hb. by rewrite Hb in Htry.
  - apply tryBlock_isBroken in Htry. by rewrite Htry.
Qed.

Lemma broken_exactly_when_witness :
  let error500 := {| status := 500; contentType := Some "text/html";
                     text := Some "Internal Server Error" |} in
  let twoLinks := Site.html (Site.anchor "/a" +:+ Site.anchor "/b") in
  brokenLinks (iteration (engine := Site.node) "https://s.test"
                 (fun _ => Resolved error500) (initial "s.test")) = []
  ∧ brokenLinks (iteration (engine := {| spreadLimit := 1 |}) "https://s.test"
                   (fun _ => twoLinks) (initial "s.test"))
    = [seedEntry "s.test"].
Proof.
  cbv zeta. split.
  - rewrite (broken_exactly_when (engine := Site.node) "https://s.test" _
               (initial "s.test") (seedEntry "s.test") eq_refl
               (not_elem_of_empty _)).
    vm_compute. reflexivity.
  - rewrite (broken_exactly_when (engine := {| spreadLimit := 1 |})
               "https://s.test" _ (initial "s.test") (seedEntry "s.test")
               eq_refl (not_elem_of_empty _)).
    vm_compute. reflexivity.
Defined.

(** X21.  Normalising is stable: a URL that [normalize] returned and that
    starts with [http] (as every URL of the frontier does) is returned
    unchanged when it is normalised again, against any page and base URL. *)
Theorem normalize_is_stable (h p b x p' b' : string) :
  normalize h p b = Some x → Js.startsWith x "http" = true →
  normalize x p' b' = Some x.
Proof.
  intros (y & -> & _)%normalize_some Hx.
  unfold normalize. rewrite (resolve_http _ _ _ Hx).
  f_equal. apply stripQuery_id, stripQuery_clean.
Qed.

Lemma normalize_is_stable_witness :
  normalize "/a?x=1" "https://s.test/dir/" "https://s.test"
    = Some "https://s.test/a"
  ∧ normalize "https://s.test/a" "https://other.test/" "https://other.test"
    = Some "https://s.test/a".
Proof.
  split; [reflexivity|].
  apply (normalize_is_stable "/a?x=1" "https://s.test/dir/" "https://s.test");
    reflexivity.
Defined.
